(** * The user service of the Wavefront management API (user.go)

    A shallow embedding of [user.go]: the [User] and [NewUserRequest] records,
    the asymmetric JSON encoding of group membership
    ([UserGroupsWrapper.MarshalJSON] / [UnmarshalJSON]) and the five operations
    [Get], [Find], [Create], [Update], [Delete] run against a client
    collaborator whose calls are recorded in a trace.

    Conventions.
    - A Go pointer to a string is an [option string]; dereferencing [None]
      panics ([Panics]).
    - A Go slice is an [option (list A)]: [None] is the nil slice.
    - A byte slice given to or produced by [encoding/json] is represented by
      the JSON value it spells ([Text j]), or [Malformed] when it is not JSON
      text at all; number literals are integers.
    - A call of a collaborator (client, response stream, search) appends an
      event to the trace, and the collaborator answers as a function of the
      trace so far. *)

From Stdlib Require Import ZArith String Ascii DecimalString.
From stdpp Require Import base option list strings gmap.

Local Open Scope Z_scope.

(** ** JSON values and errors *)

#[local] Unset Elimination Schemes.
Inductive json : Type :=
| JNull
| JBool (b : bool)
| JNum (n : Z)
| JStr (s : string)
| JArr (items : list json)
| JObj (members : list (string * json)).
#[local] Set Elimination Schemes.

Inductive wire : Type :=
| Malformed
| Text (j : json).

(** Go [error] values: [fmt.Errorf], the two errors of [encoding/json] that
    decoding can give, and whatever a collaborator returns. *)
Inductive error : Type :=
| Errorf (msg : string)
| SyntaxError
| UnmarshalTypeError (Value : string) (GoType : string)
| Remote (code : Z).

(** The [Value] field of an [UnmarshalTypeError]. *)
Definition kind (j : json) : string :=
  match j with
  | JNull => "null"
  | JBool _ => "bool"
  | JNum _ => "number"
  | JStr _ => "string"
  | JArr _ => "array"
  | JObj _ => "object"
  end.

(** A call either returns or panics (nil dereference). *)
Inductive outcome (A : Type) : Type :=
| Returns (a : A)
| Panics.
Arguments Returns {A} a.
Arguments Panics {A}.

(** ** Slices *)

Definition slice (A : Type) : Type := option (list A).

Definition elems {A : Type} (s : slice A) : list A := default [] s.

(** [append(s, xs...)]: nil stays nil when nothing is appended. *)
Definition append {A : Type} (s : slice A) (xs : list A) : slice A :=
  match s, xs with
  | None, [] => None
  | _, _ => Some (elems s ++ xs)
  end.

(** ** Decoding with [encoding/json]

    A decoder for a Go type takes the JSON value and the current content of
    the destination and gives the new content with a status: a type mismatch
    is saved and decoding goes on (the first one is returned at the end); the
    error of an [UnmarshalJSON] method stops decoding at once. *)

Inductive dstatus : Type :=
| Clean
| Saved (e : error)
| Aborted (e : error).

Definition decoder (A : Type) : Type := json -> A -> A * dstatus.

(** Status of [first] followed by [next]; used when [first] did not abort. *)
Definition after (first next : dstatus) : dstatus :=
  match first, next with
  | Clean, _ => next
  | Saved e, Clean => Saved e
  | Saved e, Saved _ => Saved e
  | Saved _, Aborted e' => Aborted e'
  | Aborted e, _ => Aborted e
  end.

Definition final (st : dstatus) : option error :=
  match st with
  | Clean => None
  | Saved e => Some e
  | Aborted e => Some e
  end.

Definition mismatch (j : json) (ty : string) : dstatus :=
  Saved (UnmarshalTypeError (kind j) ty).

(** Into a [string]: null has no effect. *)
Definition unmarshal_string : decoder string := fun j cur =>
  match j with
  | JStr s => (s, Clean)
  | JNull => (cur, Clean)
  | _ => (cur, mismatch j "string")
  end.

(** Into a [*string]: null sets the pointer to nil; for any other value a nil
    pointer is allocated before the value is looked at. *)
Definition unmarshal_ptr_string : decoder (option string) := fun j cur =>
  match j with
  | JNull => (None, Clean)
  | JStr s => (Some s, Clean)
  | _ => (Some (default EmptyString cur), mismatch j "string")
  end.

(** The text of an integer literal. *)
Definition literal (n : Z) : string := NilZero.string_of_int (Z.to_int n).

(** Into a [uint]: a number out of range is reported with its literal. *)
Definition unmarshal_uint : decoder Z := fun j cur =>
  match j with
  | JNum n =>
      if (0 <=? n) && (n <? 2 ^ 64) then (n, Clean)
      else (cur, Saved (UnmarshalTypeError ("number " +:+ literal n) "uint"))
  | JNull => (cur, Clean)
  | _ => (cur, mismatch j "uint")
  end.

(** The elements of a JSON array into a slice: element [i] is decoded into
    what the slice holds at [i], or into a zero value past its length. *)
Fixpoint unmarshal_elems {A : Type} (dec : decoder A) (zero : A)
    (items : list json) (old : list A) : list A * dstatus :=
  match items with
  | [] => ([], Clean)
  | j :: items' =>
      let '(a, st) := dec j (hd zero old) in
      match st with
      | Aborted e => (a :: tl old, Aborted e)
      | _ =>
          let '(rest, st') := unmarshal_elems dec zero items' (tl old) in
          (a :: rest, after st st')
      end
  end.

Definition unmarshal_slice {A : Type} (dec : decoder A) (zero : A) (ty : string)
    : decoder (slice A) := fun j cur =>
  match j with
  | JNull => (None, Clean)
  | JArr items =>
      let '(l, st) := unmarshal_elems dec zero items (elems cur) in (Some l, st)
  | _ => (cur, mismatch j ty)
  end.

(** Object keys are matched to field names exactly, else under the case
    folding of [encoding/json]; a key that matches no field is skipped. The
    field names of this file are ASCII letters, and a key (its UTF-8 bytes)
    matches such a name under the folding exactly when, rune by rune, it is
    the same letter in either case, or the long s (U+017F, bytes C5 BF) where
    the name has an s, or the Kelvin sign (U+212A, bytes E2 84 AA) where the
    name has a k: these are the only runes that fold onto an ASCII letter. *)
Definition lower_ascii (c : ascii) : ascii :=
  let n := nat_of_ascii c in
  if ((65 <=? n) && (n <=? 90))%nat then ascii_of_nat (n + 32) else c.

Definition is_byte (n : nat) (c : ascii) : bool := Nat.eqb (nat_of_ascii c) n.

Fixpoint foldName (s : string) : string :=
  match s with
  | EmptyString => EmptyString
  | String c rest =>
      match rest with
      | EmptyString => String (lower_ascii c) EmptyString
      | String c2 rest2 =>
          if is_byte 197 c && is_byte 191 c2 then String "s" (foldName rest2)
          else
            match rest2 with
            | EmptyString => String (lower_ascii c) (foldName rest)
            | String c3 rest3 =>
                if is_byte 226 c && is_byte 132 c2 && is_byte 170 c3
                then String "k" (foldName rest3)
                else String (lower_ascii c) (foldName rest)
            end
      end
  end.

(** The UTF-8 bytes of the long s and of the Kelvin sign. *)
Definition long_s : string := String (ascii_of_nat 197) (String (ascii_of_nat 191) EmptyString).

Definition kelvin : string :=
  String (ascii_of_nat 226) (String (ascii_of_nat 132) (String (ascii_of_nat 170) EmptyString)).

Definition field_of {F : Type} (fields : list (string * F)) (key : string) : option F :=
  match List.find (fun kf => String.eqb (fst kf) key) fields with
  | Some kf => Some (snd kf)
  | None =>
      match List.find (fun kf => String.eqb (foldName (fst kf)) (foldName key)) fields with
      | Some kf => Some (snd kf)
      | None => None
      end
  end.

(** The members of a JSON object into a struct, in the order of the text. *)
Fixpoint unmarshal_members {T : Type} (field : string -> option (decoder T))
    (members : list (string * json)) (cur : T) : T * dstatus :=
  match members with
  | [] => (cur, Clean)
  | (k, v) :: members' =>
      match field k with
      | None => unmarshal_members field members' cur
      | Some dec =>
          let '(cur', st) := dec v cur in
          match st with
          | Aborted e => (cur', Aborted e)
          | _ =>
              let '(cur'', st') := unmarshal_members field members' cur' in
              (cur'', after st st')
          end
      end
  end.

Definition unmarshal_struct {T : Type} (field : string -> option (decoder T))
    (ty : string) : decoder T := fun j cur =>
  match j with
  | JObj members => unmarshal_members field members cur
  | JNull => (cur, Clean)
  | _ => (cur, mismatch j ty)
  end.

(** [json.Unmarshal(data, &x)]. *)
Definition Unmarshal {A : Type} (dec : decoder A) (data : wire) (cur : A)
    : A * option error :=
  match data with
  | Malformed => (cur, Some SyntaxError)
  | Text j => let '(a, st) := dec j cur in (a, final st)
  end.

(** ** Group membership *)

(** Modelled from the spec: the declaration of [UserGroup] is in another file
    of the package. Its [ID] is a pointer to a string (the decoder stores a
    [*string] in it, the encoder dereferences it); the spec names the wire
    keys [id] and [name], the other descriptive fields play no part here. *)
Module UserGroup.
Record t : Type := mk { ID : option string; Name : string }.
Definition zero : t := {| ID := None; Name := EmptyString |}.
Definition set_ID (v : option string) (g : t) : t := {| ID := v; Name := Name g |}.
Definition set_Name (v : string) (g : t) : t := {| ID := ID g; Name := v |}.
End UserGroup.

Definition on_field {T V : Type} (get : T -> V) (set : V -> T -> T)
    (dec : decoder V) : decoder T := fun j cur =>
  let '(v, st) := dec j (get cur) in (set v cur, st).

Inductive UserGroup_field : Type := F_id | F_name.

Definition UserGroup_keys : list (string * UserGroup_field) :=
  [ ("id", F_id); ("name", F_name) ].

Definition UserGroup_decoder (f : UserGroup_field) : decoder UserGroup.t :=
  match f with
  | F_id => on_field UserGroup.ID UserGroup.set_ID unmarshal_ptr_string
  | F_name => on_field UserGroup.Name UserGroup.set_Name unmarshal_string
  end.

Definition unmarshal_UserGroup : decoder UserGroup.t :=
  unmarshal_struct (fun k => UserGroup_decoder <$> field_of UserGroup_keys k)
    "wavefront.UserGroup".

Record UserGroupsWrapper : Type := { UserGroups : slice UserGroup.t }.

(** [UserGroupsWrapper.UnmarshalJSON]: first as a list of ID strings, bound
    to otherwise empty groups and appended; failing that, as a list of
    groups. *)
Definition UnmarshalJSON (data : wire) (w : UserGroupsWrapper)
    : UserGroupsWrapper * option error :=
  match Unmarshal (unmarshal_slice unmarshal_ptr_string None "[]*string") data None with
  | (groupIds, None) =>
      ({| UserGroups :=
            append (UserGroups w)
              (List.map (fun v => {| UserGroup.ID := v; UserGroup.Name := EmptyString |})
                 (elems groupIds)) |}, None)
  | (_, Some _) =>
      let '(gs, err) :=
        Unmarshal (unmarshal_slice unmarshal_UserGroup UserGroup.zero "[]wavefront.UserGroup")
          data (UserGroups w) in
      ({| UserGroups := gs |}, err)
  end.

(** [json.Marshal] of a [[]*string]. *)
Definition marshal_ptr_strings (ids : slice (option string)) : json :=
  match ids with
  | None => JNull
  | Some l => JArr (List.map (fun p => match p with Some s => JStr s | None => JNull end) l)
  end.

(** The loop of [MarshalJSON]; [*v.ID] panics on a nil [ID]. *)
Fixpoint collect_ids (gs : list UserGroup.t) (ids : slice (option string))
    : outcome (slice (option string)) :=
  match gs with
  | [] => Returns ids
  | v :: gs' =>
      match UserGroup.ID v with
      | None => Panics
      | Some s =>
          if String.eqb s EmptyString then collect_ids gs' ids
          else collect_ids gs' (append ids [UserGroup.ID v])
      end
  end.

(** [UserGroupsWrapper.MarshalJSON]. *)
Definition MarshalJSON (w : UserGroupsWrapper) : outcome (wire * option error) :=
  match
    match UserGroups w with
    | None => Returns None
    | Some gs => collect_ids gs None
    end
  with
  | Panics => Panics
  | Returns ids => Returns (Text (marshal_ptr_strings ids), None)
  end.

(** ** Users *)

Module User.
Record t : Type := mk {
  ID : option string;
  Customer : string;
  LastSuccessfulLogin : Z;
  Permissions : slice string;
  Groups : UserGroupsWrapper;
  Credential : string }.
Definition zero : t :=
  {| ID := None; Customer := EmptyString; LastSuccessfulLogin := 0;
     Permissions := None; Groups := {| UserGroups := None |};
     Credential := EmptyString |}.
Definition set_ID (v : option string) (u : t) : t :=
  mk v (Customer u) (LastSuccessfulLogin u) (Permissions u) (Groups u) (Credential u).
Definition set_Customer (v : string) (u : t) : t :=
  mk (ID u) v (LastSuccessfulLogin u) (Permissions u) (Groups u) (Credential u).
Definition set_LastSuccessfulLogin (v : Z) (u : t) : t :=
  mk (ID u) (Customer u) v (Permissions u) (Groups u) (Credential u).
Definition set_Permissions (v : slice string) (u : t) : t :=
  mk (ID u) (Customer u) (LastSuccessfulLogin u) v (Groups u) (Credential u).
Definition set_Groups (v : UserGroupsWrapper) (u : t) : t :=
  mk (ID u) (Customer u) (LastSuccessfulLogin u) (Permissions u) v (Credential u).
Definition set_Credential (v : string) (u : t) : t :=
  mk (ID u) (Customer u) (LastSuccessfulLogin u) (Permissions u) (Groups u) v.
End User.

Record NewUserRequest : Type := {
  EmailAddress : string;
  Permissions : slice string;
  Groups : UserGroupsWrapper }.

(** A field whose type has an [UnmarshalJSON] method: the method gets the text
    of the value, and its error stops the whole decoding. *)
Definition unmarshal_wrapper : decoder UserGroupsWrapper := fun j cur =>
  match UnmarshalJSON (Text j) cur with
  | (w, None) => (w, Clean)
  | (w, Some e) => (w, Aborted e)
  end.

Inductive User_field : Type :=
| F_identifier
| F_customer
| F_lastSuccessfulLogin
| F_groups
| F_userGroups
| F_credential.

Definition User_keys : list (string * User_field) :=
  [ ("identifier", F_identifier);
    ("customer", F_customer);
    ("lastSuccessfulLogin", F_lastSuccessfulLogin);
    ("groups", F_groups);
    ("userGroups", F_userGroups);
    ("credential", F_credential) ].

Definition User_decoder (f : User_field) : decoder User.t :=
  match f with
  | F_identifier => on_field User.ID User.set_ID unmarshal_ptr_string
  | F_customer => on_field User.Customer User.set_Customer unmarshal_string
  | F_lastSuccessfulLogin =>
      on_field User.LastSuccessfulLogin User.set_LastSuccessfulLogin unmarshal_uint
  | F_groups =>
      on_field User.Permissions User.set_Permissions
        (unmarshal_slice unmarshal_string EmptyString "[]string")
  | F_userGroups => on_field User.Groups User.set_Groups unmarshal_wrapper
  | F_credential => on_field User.Credential User.set_Credential unmarshal_string
  end.

Definition unmarshal_User : decoder User.t :=
  unmarshal_struct (fun k => User_decoder <$> field_of User_keys k) "wavefront.User".

(** Into a [*User] element of a slice: null gives nil, anything else is
    decoded into the pointed user, allocated when the pointer is nil. *)
Definition unmarshal_ptr_User : decoder (option User.t) := fun j cur =>
  match j with
  | JNull => (None, Clean)
  | _ => let '(u, st) := unmarshal_User j (default User.zero cur) in (Some u, st)
  end.

(** The anonymous struct of [Create], [struct { Response *User }], whose
    pointer starts at the caller's user: the pointer is the caller's user,
    nil, or a user allocated by the decoder. *)
Inductive target : Type :=
| Caller
| Nil
| Fresh (u : User.t).

Record envelope : Type := { Response : target; caller : User.t }.

Definition unmarshal_Response : decoder envelope := fun j env =>
  match j with
  | JNull => ({| Response := Nil; caller := caller env |}, Clean)
  | _ =>
      match Response env with
      | Caller =>
          let '(u, st) := unmarshal_User j (caller env) in
          ({| Response := Caller; caller := u |}, st)
      | Nil =>
          let '(u, st) := unmarshal_User j User.zero in
          ({| Response := Fresh u; caller := caller env |}, st)
      | Fresh u0 =>
          let '(u, st) := unmarshal_User j u0 in
          ({| Response := Fresh u; caller := caller env |}, st)
      end
  end.

(** The name of the anonymous struct type, as [reflect] spells it: the tag is
    printed as a quoted string. *)
Definition dq : string := String (ascii_of_nat 34) EmptyString.

Definition envelope_type : string :=
  "struct { Response *wavefront.User " +:+ dq +:+ "json:\" +:+ dq +:+ "response\"
    +:+ dq +:+ dq +:+ " }".

Definition unmarshal_envelope : decoder envelope :=
  unmarshal_struct
    (fun k => (fun _ : unit => unmarshal_Response) <$> field_of [("response", tt)] k)
    envelope_type.

(** ** Encoding with [encoding/json] *)

Definition marshal_strings (l : list string) : json := JArr (List.map JStr l).

Definition omitempty {A : Type} (empty : bool) (member : A) : list A :=
  if empty then [] else [member].

(** [json.Marshal(user)]: the fields in the order of the struct, [omitempty]
    ones left out when empty; [userGroups] comes from [MarshalJSON], whose
    panic is not recovered. *)
Definition marshal_User (u : User.t) : outcome (wire * option error) :=
  match MarshalJSON (User.Groups u) with
  | Panics => Panics
  | Returns (_, Some e) => Returns (Malformed, Some e)
  | Returns (Malformed, None) => Returns (Malformed, Some SyntaxError)
  | Returns (Text groups, None) =>
      Returns (Text (JObj (
        [("identifier", match User.ID u with Some s => JStr s | None => JNull end)]
        ++ omitempty (String.eqb (User.Customer u) EmptyString)
             ("customer", JStr (User.Customer u))
        ++ omitempty (User.LastSuccessfulLogin u =? 0)
             ("lastSuccessfulLogin", JNum (User.LastSuccessfulLogin u))
        ++ omitempty (Nat.eqb (length (elems (User.Permissions u))) 0)
             ("groups", marshal_strings (elems (User.Permissions u)))
        ++ [("userGroups", groups)]
        ++ omitempty (String.eqb (User.Credential u) EmptyString)
             ("credential", JStr (User.Credential u)))), None)
  end.

(** [json.Marshal(newUser)]. *)
Definition marshal_NewUserRequest (r : NewUserRequest) : outcome (wire * option error) :=
  match MarshalJSON (Groups r) with
  | Panics => Panics
  | Returns (_, Some e) => Returns (Malformed, Some e)
  | Returns (Malformed, None) => Returns (Malformed, Some SyntaxError)
  | Returns (Text groups, None) =>
      Returns (Text (JObj (
        [("emailAddress", JStr (EmailAddress r))]
        ++ omitempty (Nat.eqb (length (elems (Permissions r))) 0)
             ("groups", marshal_strings (elems (Permissions r)))
        ++ [("userGroups", groups)])), None)
  end.

(** ** The client collaborator *)

Record Request : Type := {
  Method : string;
  Path : string;
  Query : option (gmap string string);
  Body : option wire }.

(** The response stream: what [ioutil.ReadAll] gives. *)
Record ReadCloser : Type := { content : wire; read_error : option error }.

(** Modelled from the spec: [SearchCondition], [Search] with its parameters
    and [SearchResponse] are declared in another file of the package; [Find]
    only passes the conditions on, sets the type and the offset, and reads
    the items, the more-items flag and the next offset. *)
Record SearchCondition : Type :=
  { Key : string; Value : string; MatchingMethod : string }.

Record Search : Type :=
  { Type_ : string; Conditions : slice SearchCondition; Offset : Z }.

Record SearchResponse : Type :=
  { Items : wire; MoreItems : bool; NextOffset : Z }.

Inductive call : Type :=
| CallNewRequest (method path : string) (params : option (gmap string string))
    (body : option wire)
| CallDo (req : Request)
| CallReadAll
| CallClose
| CallExecute (s : Search).

(** Modelled from the spec: the client ([NewRequest], [Do]) and
    [Search.Execute] are implemented outside this file; each answers from the
    calls made so far and its arguments, with a value or an error. *)
Record Wavefronter : Type := {
  NewRequest : list call -> string -> string -> option (gmap string string) ->
               option wire -> Request + error;
  Do : list call -> Request -> ReadCloser + error;
  Execute : list call -> Search -> SearchResponse + error }.

Record Users : Type := { client : Wavefronter }.

(** ** Computations over the trace of collaborator calls *)

Definition M (A : Type) : Type := list call -> outcome (A * list call).

Definition ret {A : Type} (a : A) : M A := fun tr => Returns (a, tr).

Definition bind {A B : Type} (m : M A) (k : A -> M B) : M B := fun tr =>
  match m tr with
  | Panics => Panics
  | Returns (a, tr') => k a tr'
  end.

Notation "x <- m ;; k" := (bind m (fun x => k))
  (at level 100, m at next level, right associativity).

Definition lift {A : Type} (o : outcome A) : M A := fun tr =>
  match o with
  | Panics => Panics
  | Returns a => Returns (a, tr)
  end.

(** [*p] *)
Definition deref {A : Type} (p : option A) : M A :=
  lift (match p with Some a => Returns a | None => Panics end).

Definition call_NewRequest (c : Wavefronter) (method path : string)
    (params : option (gmap string string)) (body : option wire) : M (Request + error) :=
  fun tr => Returns (NewRequest c tr method path params body,
                     tr ++ [CallNewRequest method path params body]).

Definition call_Do (c : Wavefronter) (req : Request) : M (ReadCloser + error) :=
  fun tr => Returns (Do c tr req, tr ++ [CallDo req]).

Definition call_Execute (c : Wavefronter) (s : Search) : M (SearchResponse + error) :=
  fun tr => Returns (Execute c tr s, tr ++ [CallExecute s]).

Definition ReadAll (resp : ReadCloser) : M (wire * option error) :=
  fun tr => Returns ((content resp, read_error resp), tr ++ [CallReadAll]).

Definition Close (resp : ReadCloser) : M unit :=
  fun tr => Returns (tt, tr ++ [CallClose]).

(** ** The operations of [user.go]

    An operation on a [*User] gives the content of the user when it returns
    together with the error it returns. *)

Definition baseUserPath : string := "/api/v2/user".

(** [fmt.Sprintf("%t", b)] *)
Definition Sprintf_t (b : bool) : string := if b then "true" else "false".

Definition updateUser (u : Users) (method path : string)
    (params : option (gmap string string)) (user : User.t) : M (User.t * option error) :=
  m <- lift (marshal_User user) ;;
  let '(payload, err) := m in
  match err with
  | Some e => ret (user, Some e)
  | None =>
      r <- call_NewRequest (client u) method path params (Some payload) ;;
      match r with
      | inr e => ret (user, Some e)
      | inl req =>
          r <- call_Do (client u) req ;;
          match r with
          | inr e => ret (user, Some e)
          | inl resp =>
              b <- ReadAll resp ;;
              let '(body, err) := b in
              let result :=
                match err with
                | Some e => (user, Some e)
                | None => Unmarshal unmarshal_User body user
                end in
              _ <- Close resp ;;
              ret result
          end
      end
  end.

Definition Get (u : Users) (user : User.t) : M (User.t * option error) :=
  id <- deref (User.ID user) ;;
  if String.eqb id EmptyString then ret (user, Some (Errorf "user ID field is not set"))
  else updateUser u "GET" (baseUserPath +:+ "/" +:+ id) None user.

Definition Update (u : Users) (user : User.t) : M (User.t * option error) :=
  id <- deref (User.ID user) ;;
  if String.eqb id EmptyString then ret (user, Some (Errorf "user ID field is not set"))
  else updateUser u "PUT" (baseUserPath +:+ "/" +:+ id) None user.

Definition Delete (u : Users) (user : User.t) : M (User.t * option error) :=
  id <- deref (User.ID user) ;;
  if String.eqb id EmptyString then ret (user, Some (Errorf "user ID field is not set"))
  else
    r <- call_NewRequest (client u) "DELETE" (baseUserPath +:+ "/" +:+ id) None None ;;
    match r with
    | inr e => ret (user, Some e)
    | inl req =>
        r <- call_Do (client u) req ;;
        match r with
        | inr e => ret (user, Some e)
        | inl resp =>
            _ <- Close resp ;;
            ret (User.set_ID (Some EmptyString) user, None)
        end
    end.

Definition Create (u : Users) (newUser : NewUserRequest) (user : User.t)
    (sendEmail : bool) : M (User.t * option error) :=
  if String.eqb (EmailAddress newUser) EmptyString
  then ret (user, Some (Errorf "a valid email address must be specified"))
  else
    let params : gmap string string := {[ "sendEmail" := Sprintf_t sendEmail ]} in
    m <- lift (marshal_NewUserRequest newUser) ;;
    let '(payload, err) := m in
    match err with
    | Some e => ret (user, Some e)
    | None =>
        r <- call_NewRequest (client u) "POST" baseUserPath (Some params) (Some payload) ;;
        match r with
        | inr e => ret (user, Some e)
        | inl req =>
            r <- call_Do (client u) req ;;
            match r with
            | inr e => ret (user, Some e)
            | inl resp =>
                b <- ReadAll resp ;;
                let '(body, err) := b in
                let result :=
                  match err with
                  | Some e => (user, Some e)
                  | None =>
                      let '(env, err) :=
                        Unmarshal unmarshal_envelope body
                          {| Response := Caller; caller := user |} in
                      (caller env, err)
                  end in
                _ <- Close resp ;;
                ret result
            end
        end
    end.

(** [json.Unmarshal(resp.Response.Items, &tmpres)] with a fresh [tmpres]. *)
Definition decode_items (items : wire) : slice (option User.t) * option error :=
  Unmarshal (unmarshal_slice unmarshal_ptr_User None "[]*wavefront.User") items None.

(** [Find]: the loop runs while [moreItems] is true; [fuel] bounds the number
    of iterations the model follows. *)
Inductive found : Type :=
| OutOfFuel
| Found (results : slice (option User.t)) (err : option error).

Fixpoint Find_loop (fuel : nat) (u : Users) (filter : slice SearchCondition)
    (offset : Z) (results : slice (option User.t)) : M found :=
  match fuel with
  | O => ret OutOfFuel
  | S fuel' =>
      r <- call_Execute (client u)
             {| Type_ := "user"; Conditions := filter; Offset := offset |} ;;
      match r with
      | inr e => ret (Found None (Some e))
      | inl resp =>
          match decode_items (Items resp) with
          | (_, Some e) => ret (Found None (Some e))
          | (tmpres, None) =>
              let results' := append results (elems tmpres) in
              if MoreItems resp
              then Find_loop fuel' u filter (NextOffset resp) results'
              else ret (Found results' None)
          end
      end
  end.

Definition Find (fuel : nat) (u : Users) (filter : slice SearchCondition) : M found :=
  Find_loop fuel u filter 0 None.

(** ** Stub collaborators

    A client that builds the request it is asked for, answers every [Do] with
    [response], and answers the [n]-th search with the [n]-th entry of
    [pages]. *)
Definition executes (tr : list call) : nat :=
  length (List.filter (fun c => match c with CallExecute _ => true | _ => false end) tr).

Definition scripted (response : ReadCloser + error)
    (pages : list (SearchResponse + error)) : Wavefronter :=
  {| NewRequest := fun _ method path params body =>
       inl {| Method := method; Path := path; Query := params; Body := body |};
     Do := fun _ _ => response;
     Execute := fun tr _ => List.nth (executes tr) pages (inr (Remote 0)) |}.

Definition replying (body : wire) : Users :=
  {| client := scripted (inl {| content := body; read_error := None |}) [] |}.

(** A page of users that have only an identifier, and such a user. *)
Definition page (ids : list string) (more : bool) (next : Z) : SearchResponse :=
  {| Items := Text (JArr (List.map (fun i => JObj [("identifier", JStr i)]) ids));
     MoreItems := more; NextOffset := next |}.

Definition named (i : string) : option User.t := Some (User.set_ID (Some i) User.zero).

(** ** Runs of the search loop *)

(** The searches made when the successive answers are [pages], the first one
    at [offset]: each page's next offset is the offset of the following
    search. *)
Fixpoint searches (filter : slice SearchCondition) (offset : Z)
    (pages : list SearchResponse) : list Search :=
  match pages with
  | [] => []
  | p :: pages' =>
      {| Type_ := "user"; Conditions := filter; Offset := offset |}
        :: searches filter (NextOffset p) pages'
  end.

(** The offset of the search that follows [pages]. *)
Definition offset_after (offset : Z) (pages : list SearchResponse) : Z :=
  fold_left (fun _ p => NextOffset p) pages offset.

(** The client, after the calls [tr], answers these successive searches with
    [pages]. *)
Fixpoint answers (c : Wavefronter) (tr : list call) (filter : slice SearchCondition)
    (offset : Z) (pages : list SearchResponse) : Prop :=
  match pages with
  | [] => True
  | p :: pages' =>
      let s := {| Type_ := "user"; Conditions := filter; Offset := offset |} in
      Execute c tr s = inl p
      /\ answers c (tr ++ [CallExecute s]) filter (NextOffset p) pages'
  end.

(** The pages' items decode to [decoded], page by page. *)
Definition decode_to (pages : list SearchResponse)
    (decoded : list (slice (option User.t))) : Prop :=
  Forall2 (fun p us => decode_items (Items p) = (us, None)) pages decoded.

(** What the loop has accumulated after the pages [decoded]. *)
Definition accumulate {A : Type} (results : slice A) (decoded : list (slice A)) : slice A :=
  fold_left (fun acc us => append acc (elems us)) decoded results.

(** ** The spec's view of group membership *)

(** A group has a non-empty ID. *)
Definition has_ID (g : UserGroup.t) : bool :=
  match UserGroup.ID g with
  | Some s => negb (String.eqb s EmptyString)
  | None => false
  end.

(** The encoder in the words of the spec: the ID of each group whose ID is
    non-empty, in order; an absent sequence when there is none. *)
Definition nonempty_ids (gs : list UserGroup.t) : list string :=
  List.map (fun g => default EmptyString (UserGroup.ID g)) (List.filter has_ID gs).

Definition encoded (ids : list string) : json :=
  match ids with
  | [] => JNull
  | _ => JArr (List.map JStr ids)
  end.

(** The elements of a wire value that is a list. *)
Definition listed (j : json) : list json :=
  match j with
  | JArr items => items
  | _ => []
  end.

(** The value of the last member of an object whose key names the ID field
    of a group. *)
Fixpoint id_member (members : list (string * json)) (found : option json) : option json :=
  match members with
  | [] => found
  | (k, v) :: members' =>
      id_member members'
        (match field_of UserGroup_keys k with Some F_id => Some v | _ => found end)
  end.

Definition nonempty_string (o : option json) : bool :=
  match o with
  | Some (JStr s) => negb (String.eqb s EmptyString)
  | _ => false
  end.

(** An element of the wire list carries a non-empty ID: it is a non-empty
    string, or an object whose ID member is one. *)
Definition carries_id (item : json) : bool :=
  match item with
  | JStr s => negb (String.eqb s EmptyString)
  | JObj members => nonempty_string (id_member members None)
  | _ => false
  end.

(** ** The fields of a user as the response carries them *)

Inductive field_value : Type :=
| V_ptr (p : option string)
| V_string (s : string)
| V_uint (n : Z)
| V_strings (l : slice string)
| V_groups (w : UserGroupsWrapper).

Definition User_get (f : User_field) (u : User.t) : field_value :=
  match f with
  | F_identifier => V_ptr (User.ID u)
  | F_customer => V_string (User.Customer u)
  | F_lastSuccessfulLogin => V_uint (User.LastSuccessfulLogin u)
  | F_groups => V_strings (User.Permissions u)
  | F_userGroups => V_groups (User.Groups u)
  | F_credential => V_string (User.Credential u)
  end.

Definition User_field_eqb (f f' : User_field) : bool :=
  match f, f' with
  | F_identifier, F_identifier | F_customer, F_customer
  | F_lastSuccessfulLogin, F_lastSuccessfulLogin | F_groups, F_groups
  | F_userGroups, F_userGroups | F_credential, F_credential => true
  | _, _ => false
  end.


(** Null has no effect on these fields of a user: on a string, on a number,
    and on the group membership, whose decoder takes null for an empty list
    of IDs to append. On the identifier and on the permission list null
    stores nil. *)
Definition null_is_noop (f : User_field) : bool :=
  match f with
  | F_customer | F_lastSuccessfulLogin | F_userGroups | F_credential => true
  | F_identifier | F_groups => false
  end.

Definition is_null (v : json) : bool :=
  match v with
  | JNull => true
  | _ => false
  end.

(** The value that the response carries for the field [f] of a user: that of
    the last member of the object whose key names the field, nulls without
    effect apart. *)
Fixpoint carried (f : User_field) (members : list (string * json))
    (found : option json) : option json :=
  match members with
  | [] => found
  | (k, v) :: members' =>
      carried f members'
        (match field_of User_keys k with
         | Some f' =>
             if User_field_eqb f' f && negb (is_null v && null_is_noop f)
             then Some v else found
         | None => found
         end)
  end.

(** The strings of a list of JSON strings. *)
Fixpoint strings_of (items : list json) : option (list string) :=
  match items with
  | [] => Some []
  | JStr s :: items' => cons s <$> strings_of items'
  | _ => None
  end.

(** What the members of a group object give for the ID and for the name, each
    by the last member that names it with a value that takes effect. *)
Fixpoint group_sent (members : list (string * json))
    (i : option (option string)) (n : option string)
    : option (option string) * option string :=
  match members with
  | [] => (i, n)
  | (k, v) :: members' =>
      match field_of UserGroup_keys k with
      | Some F_id =>
          group_sent members'
            (match v with JNull => Some None | JStr s => Some (Some s) | _ => i end) n
      | Some F_name =>
          group_sent members' i (match v with JStr s => Some s | _ => n end)
      | None => group_sent members' i n
      end
  end.

(** The group that a full group object describes: one that gives both the ID
    and the name. *)
Definition group_of (item : json) : option UserGroup.t :=
  match item with
  | JObj members =>
      match group_sent members None None with
      | (Some i, Some n) => Some {| UserGroup.ID := i; UserGroup.Name := n |}
      | _ => None
      end
  | _ => None
  end.

Fixpoint groups_of (items : list json) : option (list UserGroup.t) :=
  match items with
  | [] => Some []
  | item :: items' =>
      match group_of item, groups_of items' with
      | Some g, Some gs => Some (g :: gs)
      | _, _ => None
      end
  end.

(** The value of the field [f] that the server sends with [v]: a string or
    null for the identifier, a string for the customer and the credential, a
    number for the last login, a list of strings or null for the
    permissions, a non-empty list of full group objects for the group
    membership. *)
Definition sent_value (f : User_field) (v : json) : option field_value :=
  match f, v with
  | F_identifier, JNull => Some (V_ptr None)
  | F_identifier, JStr s => Some (V_ptr (Some s))
  | F_customer, JStr s => Some (V_string s)
  | F_credential, JStr s => Some (V_string s)
  | F_lastSuccessfulLogin, JNum n => Some (V_uint n)
  | F_groups, JNull => Some (V_strings None)
  | F_groups, JArr items => (fun l => V_strings (Some l)) <$> strings_of items
  | F_userGroups, JArr (item :: items) =>
      (fun gs => V_groups {| UserGroups := Some gs |}) <$> groups_of (item :: items)
  | _, _ => None
  end.

(** What a successful decoding of the response object leaves in the field
    [f] of a user, [found] being what the response carries for it: without it
    the field is as before; with it the field holds the value sent. *)
Definition field_received (f : User_field) (before after : User.t)
    (found : option json) : Prop :=
  match found with
  | None => User_get f after = User_get f before
  | Some v => forall x, sent_value f v = Some x -> User_get f after = x
  end.

(** A key of the response envelope of [Create] names its [response] field. *)
Definition names_response (k : string) : bool :=
  match field_of [("response", tt)] k with
  | Some _ => true
  | None => false
  end.

(** ** Further vocabulary for the properties *)

(** Groups that have only an ID, as the ID-list branch of the decoder builds
    them. *)
Definition id_only (ids : list (option string)) : list UserGroup.t :=
  List.map (fun v => {| UserGroup.ID := v; UserGroup.Name := EmptyString |}) ids.

(** Response streams opened by the calls [rest] made after the calls
    [before]: the executions that the client answered with a stream. *)
Fixpoint opened_from (c : Wavefronter) (before rest : list call) : nat :=
  match rest with
  | [] => O
  | e :: rest' =>
      (match e with
       | CallDo req => match Do c before req with inl _ => 1 | inr _ => 0 end
       | _ => 0
       end + opened_from c (before ++ [e]) rest')%nat
  end.

(** Response streams closed by the calls [calls]. *)
Definition closed (calls : list call) : nat :=
  length (List.filter (fun e => match e with CallClose => true | _ => false end) calls).

(** A call made by the search loop for [filter]: a search of type user with
    that filter. *)
Definition is_user_search (filter : slice SearchCondition) (e : call) : Prop :=
  match e with
  | CallExecute s => Type_ s = "user" /\ Conditions s = filter
  | _ => False
  end.

(** The calls made from [tr] to [tr'] closed every response stream they
    opened. *)
Definition balanced (c : Wavefronter) (tr tr' : list call) : Prop :=
  exists calls, tr' = tr ++ calls /\ opened_from c tr calls = closed calls.

(** A found item lists its group membership as plain IDs: each member of
    the object that names the group-membership field holds a list of ID
    strings (or nulls). *)
Definition lists_group_ids (item : json) : Prop :=
  match item with
  | JObj members =>
      Forall (fun kv => field_of User_keys (fst kv) = Some F_userGroups ->
                        exists ids, snd kv = marshal_ptr_strings ids) members
  | _ => True
  end.

(** The groups of a found user have nothing but an ID. *)
Definition groups_ID_only (found : option User.t) : Prop :=
  match found with
  | Some u => Forall (fun g => UserGroup.Name g = EmptyString)
                (elems (UserGroups (User.Groups u)))
  | None => True
  end.

(** * Properties *)

Ltac run :=
  unfold Get, Update, Delete, Create, updateUser, bind, ret, deref, lift,
    call_NewRequest, call_Do, call_Execute, ReadAll, Close; simpl.

(** ** Group membership: encoding *)

Lemma append_append {A : Type} (s : slice A) (xs ys : list A) :
  append (append s xs) ys = append s (xs ++ ys).
Proof.
  destruct s as [l|], xs as [|x xs], ys as [|y ys]; simpl;
    rewrite ?app_nil_r, <- ?app_assoc; reflexivity.
Qed.

Lemma collect_ids_present (gs : list UserGroup.t) (ids : slice (option string)) :
  Forall (fun g => is_Some (UserGroup.ID g)) gs ->
  collect_ids gs ids = Returns (append ids (List.map Some (nonempty_ids gs))).
Proof.
  revert ids. induction gs as [|g gs IH]; intros ids Hall; simpl.
  - destruct ids; simpl; [rewrite app_nil_r|]; reflexivity.
  - inversion Hall as [|? ? [s Hs] Hgs]; subst.
    unfold nonempty_ids, has_ID in *. simpl. rewrite Hs.
    destruct (String.eqb s EmptyString) eqn:E; simpl.
    + apply IH, Hgs.
    + rewrite (IH _ Hgs), append_append, Hs. reflexivity.
Qed.

Lemma collect_ids_panics (gs : list UserGroup.t) (ids : slice (option string)) :
  collect_ids gs ids = Panics <-> Exists (fun g => UserGroup.ID g = None) gs.
Proof.
  revert ids. induction gs as [|g gs IH]; intros ids; simpl.
  - split; [discriminate | intros H; inversion H].
  - destruct (UserGroup.ID g) as [s|] eqn:E.
    + destruct (String.eqb s EmptyString); rewrite IH; split; intros H;
        try (apply Exists_cons_tl; exact H);
        inversion H; subst; congruence || assumption.
    + split; [intros _; apply Exists_cons_hd; exact E | reflexivity].
Qed.

Lemma marshal_present_ids (l : list string) :
  marshal_ptr_strings (append None (List.map Some l)) = encoded l.
Proof.
  destruct l as [|s l]; simpl; [reflexivity|].
  f_equal. f_equal. rewrite List.map_map. reflexivity.
Qed.




(** C3: on the concrete shapes of the spec, encoding the groups g1, g2 and
    one group with an empty ID gives the wire value ["g1","g2"]; decoding
    ["g1","g2"] gives exactly two UserGroups with only the ID set; decoding
    [{"id":"g1","name":"Eng"}] gives exactly one UserGroup with ID and name
    set. *)
Theorem GroupMembership_concrete_shapes :
  MarshalJSON {| UserGroups :=
                   Some [UserGroup.mk (Some "g1") EmptyString;
                         UserGroup.mk (Some "g2") EmptyString;
                         UserGroup.mk (Some EmptyString) EmptyString] |}
    = Returns (Text (JArr [JStr "g1"; JStr "g2"]), None)
  /\ UnmarshalJSON (Text (JArr [JStr "g1"; JStr "g2"])) {| UserGroups := None |}
    = ({| UserGroups :=
            Some [UserGroup.set_ID (Some "g1") UserGroup.zero;
                  UserGroup.set_ID (Some "g2") UserGroup.zero] |}, None)
  /\ UnmarshalJSON (Text (JArr [JObj [("id", JStr "g1"); ("name", JStr "Eng")]]))
       {| UserGroups := None |}
    = ({| UserGroups := Some [UserGroup.mk (Some "g1") "Eng"] |}, None).
Proof. repeat split. Qed.

(** ** Nil identifiers *)

Lemma MarshalJSON_panics (w : UserGroupsWrapper) :
  MarshalJSON w = Panics <-> Exists (fun g => UserGroup.ID g = None) (elems (UserGroups w)).
Proof.
  unfold MarshalJSON. destruct (UserGroups w) as [gs|]; simpl.
  - rewrite <- (collect_ids_panics gs None).
    destruct (collect_ids gs None); split; congruence.
  - split; [discriminate | intros H; inversion H].
Qed.

(** C10: with an absent identifier pointer Get, Update and Delete abort on the
    nil dereference of the empty-ID check instead of returning a
    ValidationError, so they return only when the pointer is present (Delete
    then always returns; Get and Update return whenever the encoder does);
    the group-membership encoder aborts exactly when some group's ID pointer
    is absent. *)
Theorem nil_identifier_aborts (u : Users) (user : User.t) (tr : list call)
    (w : UserGroupsWrapper) :
  (User.ID user = None ->
     Get u user tr = Panics /\ Update u user tr = Panics /\ Delete u user tr = Panics)
  /\ (Delete u user tr = Panics <-> User.ID user = None)
  /\ (is_Some (User.ID user) -> MarshalJSON (User.Groups user) <> Panics ->
        Get u user tr <> Panics /\ Update u user tr <> Panics)
  /\ (MarshalJSON w = Panics <->
        Exists (fun g => UserGroup.ID g = None) (elems (UserGroups w))).
Proof.
  split; [|split; [|split]].
  - intros Hnil. run. rewrite Hnil. repeat split.
  - run. destruct (User.ID user) as [id|]; simpl.
    + split; [|discriminate].
      destruct (String.eqb id EmptyString); [discriminate|].
      destruct (NewRequest _ _ _ _ _ _); [|discriminate].
      destruct (Do _ _ _); discriminate.
    + split; reflexivity.
  - intros [id Hid] Hgroups. revert Hgroups. run. rewrite Hid. simpl.
    destruct (String.eqb id EmptyString); [split; discriminate|].
    unfold marshal_User.
    destruct (MarshalJSON (User.Groups user)) as [[[|groups] [e|]]|];
      simpl; intros Hgroups; try congruence; try (split; discriminate);
      split;
      destruct (NewRequest _ _ _ _ _ _); try discriminate;
      destruct (Do _ _ _); discriminate.
  - apply MarshalJSON_panics.
Qed.

Lemma nil_identifier_aborts_witness :
  Get (replying (Text JNull)) User.zero [] = Panics
  /\ Update (replying (Text JNull)) User.zero [] = Panics
  /\ Delete (replying (Text JNull)) User.zero [] = Panics.
Proof.
  apply (proj1 (nil_identifier_aborts (replying (Text JNull)) User.zero []
                  {| UserGroups := None |})).
  reflexivity.
Defined.

(** ** Validation *)

(** C1: for every User whose identifier is the empty string, Get, Update and
    Delete return the validation error, and for every NewUserRequest whose
    email address is the empty string Create returns the validation error; in
    each case no collaborator call is made (the trace of calls is returned as
    it was: no request built, none executed, no search) and the User is
    unchanged. *)
Theorem validation_before_any_call (u : Users) (user : User.t)
    (newUser : NewUserRequest) (sendEmail : bool) (tr : list call) :
  (User.ID user = Some EmptyString ->
     Get u user tr = Returns ((user, Some (Errorf "user ID field is not set")), tr)
     /\ Update u user tr = Returns ((user, Some (Errorf "user ID field is not set")), tr)
     /\ Delete u user tr = Returns ((user, Some (Errorf "user ID field is not set")), tr))
  /\ (EmailAddress newUser = EmptyString ->
     Create u newUser user sendEmail tr
     = Returns ((user, Some (Errorf "a valid email address must be specified")), tr)).
Proof.
  split.
  - intros Hid. run. rewrite Hid. repeat split.
  - intros Hmail. run. rewrite Hmail. reflexivity.
Qed.

Lemma validation_before_any_call_witness :
  let user := User.mk (Some EmptyString) "acme" 7 (Some ["user_management"])
                {| UserGroups := Some [UserGroup.mk (Some "g1") "Eng"] |} "secret" in
  let newUser := {| EmailAddress := EmptyString; Permissions := None;
                    Groups := {| UserGroups := None |} |} in
  (Get (replying (Text JNull)) user []
     = Returns ((user, Some (Errorf "user ID field is not set")), [])
   /\ Update (replying (Text JNull)) user []
     = Returns ((user, Some (Errorf "user ID field is not set")), [])
   /\ Delete (replying (Text JNull)) user []
     = Returns ((user, Some (Errorf "user ID field is not set")), []))
  /\ Create (replying (Text JNull)) newUser user true []
     = Returns ((user, Some (Errorf "a valid email address must be specified")), []).
Proof.
  intros user newUser.
  destruct (validation_before_any_call (replying (Text JNull)) user newUser true [])
    as [Hid Hmail].
  split; [apply Hid | apply Hmail]; reflexivity.
Defined.

(** ** Delete *)

(** C8: for every User with a non-empty identifier, whenever Delete succeeds
    the User it leaves is the input with the identifier set to the empty
    string and every other field as it was, and the calls made are the
    request build, its execution and the close of the response: the response
    body is never read; and Delete does succeed whenever the request is built
    and executed, whatever the response holds. *)
Theorem Delete_clears_identifier (u : Users) (user : User.t) (id : string)
    (tr : list call) :
  User.ID user = Some id -> id <> EmptyString ->
  let build := CallNewRequest "DELETE" (baseUserPath +:+ "/" +:+ id) None None in
  (forall user' tr', Delete u user tr = Returns ((user', None), tr') ->
     user' = User.mk (Some EmptyString) (User.Customer user)
               (User.LastSuccessfulLogin user) (User.Permissions user)
               (User.Groups user) (User.Credential user)
     /\ exists req, tr' = tr ++ [build; CallDo req; CallClose])
  /\ (forall req resp,
        NewRequest (client u) tr "DELETE" (baseUserPath +:+ "/" +:+ id) None None = inl req ->
        Do (client u) (tr ++ [build]) req = inl resp ->
        Delete u user tr
        = Returns ((User.set_ID (Some EmptyString) user, None),
                   tr ++ [build; CallDo req; CallClose])).
Proof.
  intros Hid Hne build. apply String.eqb_neq in Hne. subst build. split.
  - intros user' tr'. run. rewrite Hid. simpl. rewrite Hne.
    destruct (NewRequest _ _ _ _ _ _) as [req|e]; [|discriminate].
    destruct (Do _ _ _) as [resp|e]; [|discriminate].
    intros [= <- <-]. split; [reflexivity|].
    exists req. rewrite <- !app_assoc. reflexivity.
  - intros req resp Hreq Hdo. run. rewrite Hid. simpl. rewrite Hne, Hreq, Hdo.
    rewrite <- !app_assoc. reflexivity.
Qed.

Lemma Delete_clears_identifier_witness :
  let user := User.mk (Some "a@b.c") "acme" 7 (Some ["user_management"])
                {| UserGroups := Some [UserGroup.mk None "Eng"] |} "secret" in
  exists req,
    Delete (replying Malformed) user []
    = Returns ((User.mk (Some EmptyString) "acme" 7 (Some ["user_management"])
                  {| UserGroups := Some [UserGroup.mk None "Eng"] |} "secret", None),
               [CallNewRequest "DELETE" "/api/v2/user/a@b.c" None None;
                CallDo req; CallClose]).
Proof.
  intros user. eexists.
  eapply (proj2 (Delete_clears_identifier (replying Malformed) user "a@b.c" []
                   eq_refl ltac:(discriminate))).
  - reflexivity.
  - reflexivity.
Defined.

(** ** Find *)

Lemma elems_append {A : Type} (s : slice A) (xs : list A) :
  elems (append s xs) = elems s ++ xs.
Proof. destruct s as [l|], xs as [|x xs]; reflexivity. Qed.

Lemma elems_accumulate {A : Type} (decoded : list (slice A)) (results : slice A) :
  elems (accumulate results decoded) = elems results ++ concat (List.map elems decoded).
Proof.
  revert results. induction decoded as [|us decoded IH]; intros results; simpl.
  - rewrite app_nil_r. reflexivity.
  - unfold accumulate in *. simpl. rewrite IH, elems_append, <- app_assoc. reflexivity.
Qed.

Section FindRuns.
Context (u : Users) (filter : slice SearchCondition).

(** Pages that all announce more items keep the loop going. *)
Lemma Find_loop_steps (pages : list SearchResponse) :
  forall (decoded : list (slice (option User.t))) (extra : nat) (offset : Z)
         (results : slice (option User.t)) (tr : list call),
    Forall (fun p => MoreItems p = true) pages ->
    answers (client u) tr filter offset pages ->
    decode_to pages decoded ->
    Find_loop (length pages + extra) u filter offset results tr
    = Find_loop extra u filter (offset_after offset pages) (accumulate results decoded)
        (tr ++ List.map CallExecute (searches filter offset pages)).
Proof.
  induction pages as [|p pages IH]; intros decoded extra offset results tr Hmore Hans Hdec.
  - inversion Hdec; subst. simpl. rewrite app_nil_r. reflexivity.
  - inversion Hdec as [|? us ? decoded' Hp Hrest]; subst.
    inversion Hmore as [|? ? Hflag Hmore']; subst.
    destruct Hans as [Hexec Hans].
    cbn [length Nat.add Find_loop]. unfold bind at 1, call_Execute at 1.
    rewrite Hexec, Hp, Hflag.
    rewrite (IH decoded' extra _ _ _ Hmore' Hans Hrest).
    cbn [searches List.map]. rewrite <- app_assoc. reflexivity.
Qed.

Lemma answers_app (pages pages' : list SearchResponse) :
  forall (offset : Z) (tr : list call),
    answers (client u) tr filter offset (pages ++ pages')
    <-> answers (client u) tr filter offset pages
        /\ answers (client u) (tr ++ List.map CallExecute (searches filter offset pages))
             filter (offset_after offset pages) pages'.
Proof.
  induction pages as [|p pages IH]; intros offset tr; simpl.
  - rewrite app_nil_r. tauto.
  - rewrite IH, <- app_assoc. simpl. tauto.
Qed.

Lemma searches_app (pages pages' : list SearchResponse) :
  forall offset : Z,
    searches filter offset (pages ++ pages')
    = searches filter offset pages ++ searches filter (offset_after offset pages) pages'.
Proof.
  induction pages as [|p pages IH]; intros offset; simpl; [|rewrite IH]; reflexivity.
Qed.

Lemma length_searches (pages : list SearchResponse) :
  forall offset : Z, length (searches filter offset pages) = length pages.
Proof.
  induction pages as [|p pages IH]; intros offset; simpl; [|rewrite IH]; reflexivity.
Qed.

(** C5: for every finite sequence of pages answered by the search whose
    more-items flags are true on all pages but the last and false on the
    last, Find (given at least one iteration per page) makes exactly one
    search call per page, the first at offset 0 and each following one at the
    previous page's next offset, stops at the page whose flag is false, and
    returns without error the concatenation of all the pages' items in
    order. *)
Theorem Find_concatenates_pages (tr : list call) (init : list SearchResponse)
    (last : SearchResponse) (decoded : list (slice (option User.t))) (fuel : nat) :
  Forall (fun p => MoreItems p = true) init ->
  MoreItems last = false ->
  answers (client u) tr filter 0 (init ++ [last]) ->
  decode_to (init ++ [last]) decoded ->
  (length (init ++ [last]) <= fuel)%nat ->
  Find fuel u filter tr
  = Returns (Found (accumulate None decoded) None,
             tr ++ List.map CallExecute (searches filter 0 (init ++ [last])))
  /\ elems (accumulate None decoded) = concat (List.map elems decoded)
  /\ length (searches filter 0 (init ++ [last])) = length (init ++ [last]).
Proof.
  intros Hmore Hlast Hans Hdec Hfuel.
  split; [|split; [apply (elems_accumulate decoded None) | apply length_searches]].
  apply answers_app in Hans as [Hinit [Hexec _]].
  apply Forall2_app_inv_l in Hdec as (decoded1 & decoded2 & Hdec1 & Hdec2 & ->).
  inversion Hdec2 as [|? us ? ? Hus Hnil]; subst. inversion Hnil; subst.
  rewrite length_app in Hfuel. simpl in Hfuel.
  replace fuel with (length init + S (fuel - length init - 1))%nat by lia.
  unfold Find. rewrite (Find_loop_steps init decoded1 _ 0 None tr Hmore Hinit Hdec1).
  cbn [Find_loop]. unfold bind at 1, call_Execute at 1.
  rewrite Hexec, Hus, Hlast. unfold ret, accumulate.
  rewrite searches_app, List.map_app, fold_left_app, <- app_assoc. reflexivity.
Qed.

(** C6: for every run in which some page fails, after any number of pages
    that were answered, decoded and announced more items, whether the search
    itself returns an error or the page's items do not decode, Find returns
    that error with a nil result: nothing accumulated from the earlier pages
    is returned. *)
Theorem Find_failure_returns_nothing (tr : list call) (pages : list SearchResponse)
    (decoded : list (slice (option User.t))) (fuel : nat) (e : error) :
  let s := {| Type_ := "user"; Conditions := filter; Offset := offset_after 0 pages |} in
  let tr' := tr ++ List.map CallExecute (searches filter 0 pages) in
  Forall (fun p => MoreItems p = true) pages ->
  answers (client u) tr filter 0 pages ->
  decode_to pages decoded ->
  (Execute (client u) tr' s = inr e
   \/ exists p us, Execute (client u) tr' s = inl p
                   /\ decode_items (Items p) = (us, Some e)) ->
  (length pages < fuel)%nat ->
  Find fuel u filter tr = Returns (Found None (Some e), tr' ++ [CallExecute s]).
Proof.
  intros s tr' Hmore Hans Hdec Hfail Hfuel.
  replace fuel with (length pages + S (fuel - length pages - 1))%nat by lia.
  unfold Find. rewrite (Find_loop_steps pages decoded _ 0 None tr Hmore Hans Hdec).
  cbn [Find_loop]. unfold bind at 1, call_Execute at 1. fold s tr'.
  destruct Hfail as [Herr | (p & us & Hexec & Herr)].
  - rewrite Herr. reflexivity.
  - rewrite Hexec, Herr. reflexivity.
Qed.

End FindRuns.

Lemma Find_concatenates_pages_witness :
  let pages := [page ["a"; "b"] true 100; page ["c"] true 200; page ["d"] false 0] in
  let u := {| client := scripted (inr (Remote 1)) (List.map inl pages) |} in
  Find 3 u None []
  = Returns (Found (Some [named "a"; named "b"; named "c"; named "d"]) None,
             [CallExecute {| Type_ := "user"; Conditions := None; Offset := 0 |};
              CallExecute {| Type_ := "user"; Conditions := None; Offset := 100 |};
              CallExecute {| Type_ := "user"; Conditions := None; Offset := 200 |}]).
Proof.
  intros pages u.
  apply (proj1 (Find_concatenates_pages u None []
                  [page ["a"; "b"] true 100; page ["c"] true 200] (page ["d"] false 0)
                  [Some [named "a"; named "b"]; Some [named "c"]; Some [named "d"]] 3
                  ltac:(repeat constructor) eq_refl
                  ltac:(repeat split) ltac:(repeat constructor) ltac:(simpl; lia))).
Defined.

Lemma Find_failure_returns_nothing_witness :
  let pages := [inl (page ["a"; "b"] true 100); inl (page ["c"] true 200);
                inr (Remote 503)] in
  let u := {| client := scripted (inr (Remote 1)) pages |} in
  Find 5 u None []
  = Returns (Found None (Some (Remote 503)),
             [CallExecute {| Type_ := "user"; Conditions := None; Offset := 0 |};
              CallExecute {| Type_ := "user"; Conditions := None; Offset := 100 |};
              CallExecute {| Type_ := "user"; Conditions := None; Offset := 200 |}]).
Proof.
  intros pages u.
  apply (Find_failure_returns_nothing u None []
           [page ["a"; "b"] true 100; page ["c"] true 200]
           [Some [named "a"; named "b"]; Some [named "c"]] 5 (Remote 503)
           ltac:(repeat constructor) ltac:(repeat split) ltac:(repeat constructor)
           ltac:(left; reflexivity) ltac:(simpl; lia)).
Defined.

(** ** Group membership: decoding *)

Lemma after_Clean (st st' : dstatus) : after st st' = Clean -> st = Clean /\ st' = Clean.
Proof. destruct st, st'; simpl; intros H; try discriminate; auto. Qed.

Lemma unmarshal_elems_Clean {A : Type} (dec : decoder A) (zero : A)
    (R : json -> A -> Prop) :
  (forall j a, dec j zero = (a, Clean) -> R j a) ->
  forall items l, unmarshal_elems dec zero items [] = (l, Clean) -> Forall2 R items l.
Proof.
  intros Hdec. induction items as [|j items IH]; intros l; simpl.
  - intros [= <-]. constructor.
  - destruct (dec j zero) as [a st] eqn:Ej.
    destruct (unmarshal_elems dec zero items []) as [rest st'] eqn:Erest.
    destruct st, st'; simpl; try discriminate. intros [= <-].
    constructor; [apply Hdec, Ej | apply IH; reflexivity].
Qed.

Lemma unmarshal_members_id (members : list (string * json)) :
  forall (cur g : UserGroup.t) (found : option json),
    nonempty_string found = has_ID cur ->
    unmarshal_members (fun k => UserGroup_decoder <$> field_of UserGroup_keys k)
      members cur = (g, Clean) ->
    nonempty_string (id_member members found) = has_ID g.
Proof.
  induction members as [|[k v] members IH]; intros cur g found Hinv; simpl.
  - intros [= <-]. exact Hinv.
  - destruct (field_of UserGroup_keys k) as [[|]|]; simpl.
    + unfold on_field.
      destruct (unmarshal_ptr_string v (UserGroup.ID cur)) as [i st] eqn:Ev.
      destruct (unmarshal_members _ members (UserGroup.set_ID i cur)) as [g' st'] eqn:Em.
      destruct st, st'; simpl; try discriminate. intros [= <-].
      apply (fun H => IH _ _ _ H Em).
      destruct v; simpl in Ev; try discriminate; injection Ev as <-; reflexivity.
    + unfold on_field.
      destruct (unmarshal_string v (UserGroup.Name cur)) as [n st] eqn:Ev.
      destruct (unmarshal_members _ members (UserGroup.set_Name n cur)) as [g' st'] eqn:Em.
      destruct st, st'; simpl; try discriminate. intros [= <-].
      apply (fun H => IH _ _ _ H Em). exact Hinv.
    + apply IH, Hinv.
Qed.

Lemma unmarshal_UserGroup_id (j : json) (g : UserGroup.t) :
  unmarshal_UserGroup j UserGroup.zero = (g, Clean) -> carries_id j = has_ID g.
Proof.
  destruct j; simpl; try discriminate.
  - intros [= <-]. reflexivity.
  - apply unmarshal_members_id. reflexivity.
Qed.

Lemma unmarshal_ptr_string_id (j : json) (v : option string) :
  unmarshal_ptr_string j None = (v, Clean) ->
  carries_id j = has_ID {| UserGroup.ID := v; UserGroup.Name := EmptyString |}.
Proof. destruct j; simpl; try discriminate; intros [= <-]; reflexivity. Qed.

Lemma final_None (st : dstatus) : final st = None -> st = Clean.
Proof. destruct st; simpl; congruence. Qed.

(** C4 (amended): for every wire value accepted by the group-membership
    decoder into an empty collection, as a list of plain ID strings or as a
    list of group objects, the resulting collection has one UserGroup per
    element of the wire list, in order, and that UserGroup has a non-empty ID
    exactly when the element carries one (a non-empty string, or an object
    whose ID member is a non-empty string); hence every UserGroup of the
    result has a non-empty ID when every element carries one. The decoder
    drops nothing. *)
Theorem UnmarshalJSON_keeps_every_element (j : json) (w : UserGroupsWrapper) :
  UnmarshalJSON (Text j) {| UserGroups := None |} = (w, None) ->
  Forall2 (fun item g => carries_id item = has_ID g) (listed j) (elems (UserGroups w))
  /\ (Forall (fun item => carries_id item = true) (listed j) ->
      Forall (fun g => has_ID g = true) (elems (UserGroups w))).
Proof.
  intros Hdec.
  assert (Forall2 (fun item g => carries_id item = has_ID g) (listed j)
            (elems (UserGroups w))) as Hall.
  { revert Hdec. unfold UnmarshalJSON, Unmarshal.
    destruct j as [| | | |items|]; simpl; try discriminate.
    - intros [= <-]. constructor.
    - destruct (unmarshal_elems unmarshal_ptr_string None items []) as [l st] eqn:Eids.
      destruct (final st) eqn:Est.
      + destruct (unmarshal_elems unmarshal_UserGroup UserGroup.zero items [])
          as [gs st2] eqn:Egs.
        intros [= <- Hst2]. apply final_None in Hst2 as ->. simpl.
        apply (unmarshal_elems_Clean _ _ _ unmarshal_UserGroup_id _ _ Egs).
      + apply final_None in Est as ->. intros [= <-]. cbn [UserGroups].
        match goal with
        | |- Forall2 _ _ ?gs =>
            replace gs with (List.map (fun v => UserGroup.mk v EmptyString) l)
              by (destruct l; reflexivity)
        end.
        apply Forall2_fmap_r.
        apply (unmarshal_elems_Clean _ _ _ unmarshal_ptr_string_id _ _ Eids). }
  split; [exact Hall|].
  induction Hall as [|item g items gs Heq _ IH]; intros Hitems; constructor;
    inversion Hitems; subst; [congruence | auto].
Qed.

Lemma UnmarshalJSON_keeps_every_element_witness :
  let w := {| UserGroups := Some [UserGroup.mk (Some "g1") "Eng";
                                  UserGroup.mk (Some "g2") EmptyString] |} in
  Forall (fun g => has_ID g = true) (elems (UserGroups w)).
Proof.
  intros w.
  apply (proj2 (UnmarshalJSON_keeps_every_element
                  (JArr [JObj [("id", JStr "g1"); ("name", JStr "Eng")];
                         JObj [("ID", JStr "g2")]]) w eq_refl)).
  repeat constructor.
Defined.

(** C4, as stated, fails: a wire list holding an empty string, or a null, is
    accepted as a list of plain IDs, and a list holding an object without an
    ID is accepted as a list of groups; each gives a UserGroup without a
    non-empty ID. *)
Lemma UnmarshalJSON_empty_ID_counterexample :
  UnmarshalJSON (Text (JArr [JStr "g1"; JStr EmptyString; JNull])) {| UserGroups := None |}
  = ({| UserGroups := Some [UserGroup.mk (Some "g1") EmptyString;
                            UserGroup.mk (Some EmptyString) EmptyString;
                            UserGroup.mk None EmptyString] |}, None)
  /\ UnmarshalJSON (Text (JArr [JObj [("name", JStr "Eng")]])) {| UserGroups := None |}
     = ({| UserGroups := Some [UserGroup.mk None "Eng"] |}, None)
  /\ ~ (forall j w, UnmarshalJSON (Text j) {| UserGroups := None |} = (w, None) ->
          Forall (fun g => has_ID g = true) (elems (UserGroups w))).
Proof.
  split; [reflexivity|]. split; [reflexivity|].
  intros Hclaim.
  specialize (Hclaim (JArr [JStr EmptyString]) _ eq_refl).
  inversion Hclaim; subst. discriminate.
Qed.

(** ** Decoding into a struct *)

(** Keys are matched under the folding: in either case, and with the long s
    for an s; another letter in place of one does not match. *)
Lemma keys_are_folded :
  field_of User_keys "LastSuccessfulLogin" = Some F_lastSuccessfulLogin
  /\ field_of User_keys ("cu" +:+ long_s +:+ "tomer") = Some F_customer
  /\ field_of User_keys ("U" +:+ long_s +:+ "ERGROUP" +:+ long_s) = Some F_userGroups
  /\ names_response ("re" +:+ long_s +:+ "ponse") = true
  /\ field_of [("key", tt)] (kelvin +:+ "ey") = Some tt
  /\ field_of User_keys "costumer" = None
  /\ field_of User_keys (kelvin +:+ "ustomer") = None.
Proof. repeat split. Qed.

Lemma unmarshal_members_skip {T : Type} (field : string -> option (decoder T))
    (pre rest : list (string * json)) (cur : T) :
  Forall (fun kv => field (fst kv) = None) pre ->
  unmarshal_members field (pre ++ rest) cur = unmarshal_members field rest cur.
Proof.
  induction 1 as [|[k v] pre Hk _ IH]; simpl; [reflexivity|].
  simpl in Hk. rewrite Hk. exact IH.
Qed.

(** A struct decoded from an object in which a single member names a field:
    the other members are skipped. *)
Lemma unmarshal_members_single {T : Type} (field : string -> option (decoder T))
    (dec : decoder T) (pre post : list (string * json)) (k : string) (v : json) (cur : T) :
  Forall (fun kv => field (fst kv) = None) pre ->
  Forall (fun kv => field (fst kv) = None) post ->
  field k = Some dec ->
  unmarshal_members field (pre ++ (k, v) :: post) cur = dec v cur.
Proof.
  intros Hpre Hpost Hk. rewrite (unmarshal_members_skip _ _ _ _ Hpre). simpl. rewrite Hk.
  destruct (dec v cur) as [cur' st].
  rewrite <- (app_nil_r post), (unmarshal_members_skip _ _ _ _ Hpost). simpl.
  destruct st; reflexivity.
Qed.

Lemma on_field_fst {T V : Type} (get : T -> V) (set : V -> T -> T) (dec : decoder V)
    (j : json) (cur : T) :
  fst (on_field get set dec j cur) = set (fst (dec j (get cur))) cur.
Proof. unfold on_field. destruct (dec j (get cur)); reflexivity. Qed.

Lemma on_field_snd {T V : Type} (get : T -> V) (set : V -> T -> T) (dec : decoder V)
    (j : json) (cur : T) :
  snd (on_field get set dec j cur) = snd (dec j (get cur)).
Proof. unfold on_field. destruct (dec j (get cur)); reflexivity. Qed.

(** Decoding one field of a user leaves the other fields as they were. *)
Lemma User_decoder_frame (f f' : User_field) (v : json) (cur : User.t) :
  User_field_eqb f' f = false ->
  User_get f (fst (User_decoder f' v cur)) = User_get f cur.
Proof.
  destruct f, f'; simpl; try discriminate; intros _; rewrite on_field_fst; reflexivity.
Qed.

Lemma User_field_eqb_eq (f f' : User_field) : User_field_eqb f f' = true -> f = f'.
Proof. destruct f, f'; simpl; congruence. Qed.

Lemma unmarshal_elems_strings (l : list string) :
  forall old : list string,
    unmarshal_elems unmarshal_string EmptyString (List.map JStr l) old = (l, Clean).
Proof.
  induction l as [|s l IH]; intros old; simpl; [reflexivity|]. rewrite IH. reflexivity.
Qed.

Lemma unmarshal_elems_mismatch {A : Type} (dec : decoder A) (zero : A) (bad : json) :
  (forall j cur, snd (dec j cur) <> Clean -> exists e, snd (dec j cur) = Saved e) ->
  (forall cur, snd (dec bad cur) <> Clean) ->
  forall items old, In bad items -> snd (unmarshal_elems dec zero items old) <> Clean.
Proof.
  intros Hsaved Hbad. induction items as [|j items IH]; intros old; simpl; [tauto|].
  intros [-> | Hin].
  - destruct (Hsaved bad (hd zero old) (Hbad _)) as [e He].
    destruct (dec bad (hd zero old)) as [a st]. simpl in He. subst st.
    destruct (unmarshal_elems dec zero items (tl old)) as [rest st']. simpl.
    destruct st'; discriminate.
  - specialize (IH (tl old) Hin).
    destruct (dec j (hd zero old)) as [a st].
    destruct (unmarshal_elems dec zero items (tl old)) as [rest st']. simpl in IH.
    destruct st, st'; simpl; congruence.
Qed.

Lemma unmarshal_ptr_string_saved (j : json) (cur : option string) :
  snd (unmarshal_ptr_string j cur) <> Clean ->
  exists e, snd (unmarshal_ptr_string j cur) = Saved e.
Proof. destruct j; simpl; intros H; try congruence; eauto. Qed.

Lemma final_not_Clean (st : dstatus) : st <> Clean -> exists e, final st = Some e.
Proof. destruct st; simpl; intros H; [congruence | eauto | eauto]. Qed.

Lemma unmarshal_elems_Clean_any {A : Type} (dec : decoder A) (zero : A)
    (R : json -> A -> Prop) :
  (forall j cur a, dec j cur = (a, Clean) -> R j a) ->
  forall items old l, unmarshal_elems dec zero items old = (l, Clean) -> Forall2 R items l.
Proof.
  intros Hdec. induction items as [|j items IH]; intros old l; simpl.
  - intros [= <-]. constructor.
  - destruct (dec j (hd zero old)) as [a st] eqn:Ej.
    destruct (unmarshal_elems dec zero items (tl old)) as [rest st'] eqn:Erest.
    destruct st, st'; simpl; try discriminate. intros [= <-].
    constructor; [eapply Hdec, Ej | eapply IH, Erest].
Qed.

Lemma strings_of_map (items : list json) :
  forall l, strings_of items = Some l -> items = List.map JStr l.
Proof.
  induction items as [|j items IH]; simpl; intros l.
  - intros [= <-]. reflexivity.
  - destruct j; try discriminate.
    destruct (strings_of items) as [l'|]; simpl; [|discriminate].
    intros [= <-]. simpl. f_equal. apply IH. reflexivity.
Qed.

Lemma unmarshal_members_group_sent (members : list (string * json)) :
  forall (cur g : UserGroup.t) (ki : option (option string)) (kn : option string),
    (forall i, ki = Some i -> UserGroup.ID cur = i) ->
    (forall n, kn = Some n -> UserGroup.Name cur = n) ->
    unmarshal_members (fun k => UserGroup_decoder <$> field_of UserGroup_keys k)
      members cur = (g, Clean) ->
    (forall i, fst (group_sent members ki kn) = Some i -> UserGroup.ID g = i)
    /\ (forall n, snd (group_sent members ki kn) = Some n -> UserGroup.Name g = n).
Proof.
  induction members as [|[k v] members IH]; intros cur g ki kn Hi Hn; simpl.
  - intros [= <-]. split; assumption.
  - destruct (field_of UserGroup_keys k) as [[|]|]; simpl; [| |apply IH; assumption].
    + unfold on_field.
      destruct (unmarshal_ptr_string v (UserGroup.ID cur)) as [i st] eqn:Ev.
      destruct (unmarshal_members _ members (UserGroup.set_ID i cur)) as [g' st'] eqn:Em.
      destruct st, st'; simpl; try discriminate. intros [= <-].
      apply (fun H1 H2 => IH _ _ _ _ H1 H2 Em); [|exact Hn].
      destruct v; simpl in Ev; try discriminate; injection Ev as <-;
        simpl; intros i' [= <-]; reflexivity.
    + unfold on_field.
      destruct (unmarshal_string v (UserGroup.Name cur)) as [n st] eqn:Ev.
      destruct (unmarshal_members _ members (UserGroup.set_Name n cur)) as [g' st'] eqn:Em.
      destruct st, st'; simpl; try discriminate. intros [= <-].
      apply (fun H1 H2 => IH _ _ _ _ H1 H2 Em); [exact Hi|].
      destruct v; simpl in Ev; try discriminate; injection Ev as <-; simpl;
        [exact Hn | intros n' [= <-]; reflexivity].
Qed.

Lemma unmarshal_UserGroup_group_of (j : json) (cur g : UserGroup.t) :
  unmarshal_UserGroup j cur = (g, Clean) ->
  forall g0, group_of j = Some g0 -> g = g0.
Proof.
  destruct j; simpl; try discriminate. intros Hdec g0.
  destruct (unmarshal_members_group_sent members cur g None None
              ltac:(discriminate) ltac:(discriminate) Hdec) as [Hi Hn].
  destruct (group_sent members None None) as [[i|] [n|]]; try discriminate.
  intros [= <-]. destruct g as [gi gn]. simpl in *.
  rewrite (Hi i eq_refl), (Hn n eq_refl). reflexivity.
Qed.

Lemma groups_of_decoded (items : list json) :
  forall l gs,
    Forall2 (fun j g => forall g0, group_of j = Some g0 -> g = g0) items l ->
    groups_of items = Some gs -> l = gs.
Proof.
  induction items as [|j items IH]; intros l gs Hall; inversion Hall; subst; simpl.
  - intros [= <-]. reflexivity.
  - destruct (group_of j) as [g|] eqn:Eg; [|discriminate].
    destruct (groups_of items) as [gs'|] eqn:Egs; [|discriminate].
    intros [= <-]. f_equal; [auto | eapply IH; eauto].
Qed.

Lemma group_of_object (j : json) (g : UserGroup.t) :
  group_of j = Some g -> exists members, j = JObj members.
Proof. destruct j; simpl; try discriminate. eauto. Qed.

(** A list that holds an object is not a list of IDs: the decoder falls back
    to the list of groups, decoded over the groups the wrapper holds. *)
Lemma UnmarshalJSON_objects (items : list json) (members : list (string * json))
    (w : UserGroupsWrapper) :
  In (JObj members) items ->
  UnmarshalJSON (Text (JArr items)) w
  = (let '(l, st) :=
       unmarshal_elems unmarshal_UserGroup UserGroup.zero items (elems (UserGroups w)) in
     ({| UserGroups := Some l |}, final st)).
Proof.
  intros Hin. unfold UnmarshalJSON, Unmarshal. cbn [unmarshal_slice].
  change (elems (@None (list (option string)))) with (@nil (option string)).
  pose proof (unmarshal_elems_mismatch unmarshal_ptr_string None (JObj members)
                unmarshal_ptr_string_saved ltac:(intros c; discriminate)
                items [] Hin) as Hids.
  destruct (unmarshal_elems unmarshal_ptr_string None items []) as [ids st1].
  simpl in Hids. destruct (final_not_Clean st1 Hids) as [e ->].
  destruct (unmarshal_elems unmarshal_UserGroup UserGroup.zero items _) as [l st2].
  reflexivity.
Qed.

(** A field decoded without error holds the value sent, whatever it held
    before. *)
Lemma User_decoder_sent (f : User_field) (v : json) (cur cur' : User.t) (x : field_value) :
  User_decoder f v cur = (cur', Clean) -> sent_value f v = Some x ->
  User_get f cur' = x.
Proof.
  intros Hdec Hsent.
  assert (cur' = fst (User_decoder f v cur)) as -> by (rewrite Hdec; reflexivity).
  assert (snd (User_decoder f v cur) = Clean) as Hst by (rewrite Hdec; reflexivity).
  clear Hdec.
  destruct f; cbn [User_decoder User_get] in *; rewrite on_field_fst;
    rewrite on_field_snd in Hst.
  - destruct v; simpl in *; try discriminate; injection Hsent as <-; reflexivity.
  - destruct v; simpl in *; try discriminate; injection Hsent as <-; reflexivity.
  - destruct v as [| |n| | |]; simpl in *; try discriminate. injection Hsent as <-.
    destruct ((0 <=? n) && (n <? 2 ^ 64)); [reflexivity | discriminate].
  - destruct v as [| | | |items|]; cbn [sent_value] in Hsent; try discriminate.
    + injection Hsent as <-. reflexivity.
    + destruct (strings_of items) as [l|] eqn:El; [|discriminate].
      injection Hsent as <-. cbn [unmarshal_slice].
      rewrite (strings_of_map _ _ El), unmarshal_elems_strings. reflexivity.
  - destruct v as [| | | |[|item items]|]; cbn [sent_value] in Hsent; try discriminate.
    destruct (groups_of (item :: items)) as [gs|] eqn:Egs; [|discriminate].
    injection Hsent as <-.
    assert (exists members, item = JObj members) as [members ->].
    { simpl in Egs. destruct (group_of item) eqn:Eg; [|discriminate].
      eapply group_of_object, Eg. }
    revert Hst. unfold unmarshal_wrapper.
    rewrite (UnmarshalJSON_objects (JObj members :: items) members (User.Groups cur)
               ltac:(left; reflexivity)).
    destruct (unmarshal_elems unmarshal_UserGroup UserGroup.zero (JObj members :: items)
                (elems (UserGroups (User.Groups cur)))) as [l st2] eqn:El.
    destruct (final st2) eqn:Est; [discriminate|]. intros _.
    apply final_None in Est. subst st2. cbn [fst User_get User.Groups User.set_Groups].
    f_equal. f_equal. f_equal.
    apply (groups_of_decoded (JObj members :: items)); [|exact Egs].
    apply (unmarshal_elems_Clean_any unmarshal_UserGroup UserGroup.zero _
             unmarshal_UserGroup_group_of _ _ _ El).
  - destruct v; simpl in *; try discriminate; injection Hsent as <-; reflexivity.
Qed.

(** A null without effect leaves the field as it was. *)
Lemma User_decoder_null (f : User_field) (cur : User.t) :
  null_is_noop f = true ->
  User_get f (fst (User_decoder f JNull cur)) = User_get f cur.
Proof.
  destruct f; cbn [User_decoder User_get null_is_noop]; try discriminate; intros _;
    rewrite on_field_fst; try reflexivity.
  unfold unmarshal_wrapper, UnmarshalJSON. simpl.
  destruct (User.Groups cur) as [[l|]]; simpl; [rewrite app_nil_r|]; reflexivity.
Qed.

Lemma unmarshal_members_received (f : User_field) (before : User.t)
    (members : list (string * json)) :
  forall (cur after : User.t) (found : option json),
    field_received f before cur found ->
    unmarshal_members (fun k => User_decoder <$> field_of User_keys k) members cur
    = (after, Clean) ->
    field_received f before after (carried f members found).
Proof.
  induction members as [|[k v] members IH]; intros cur after found Hinv; simpl.
  - intros [= <-]. exact Hinv.
  - destruct (field_of User_keys k) as [f'|]; simpl; [|apply IH, Hinv].
    destruct (User_decoder f' v cur) as [cur' st] eqn:Ev.
    destruct (unmarshal_members _ members cur') as [cur'' st'] eqn:Em.
    destruct st, st'; simpl; try discriminate. intros [= <-].
    apply (fun H => IH _ _ _ H Em).
    destruct (User_field_eqb f' f) eqn:Ef; simpl.
    + apply User_field_eqb_eq in Ef. subst f'.
      destruct (is_null v && null_is_noop f) eqn:En; simpl.
      * apply andb_prop in En as [Hv Hnoop]. destruct v; try discriminate.
        pose proof (User_decoder_null f cur Hnoop) as Hkeep. rewrite Ev in Hkeep.
        simpl in Hkeep. unfold field_received in *. rewrite Hkeep. exact Hinv.
      * intros x Hx. exact (User_decoder_sent f v cur cur' x Ev Hx).
    + pose proof (User_decoder_frame f f' v cur Ef) as Hkeep. rewrite Ev in Hkeep.
      simpl in Hkeep. unfold field_received in *. rewrite Hkeep. exact Hinv.
Qed.

(** ** Get and Create *)

Lemma MarshalJSON_present (w : UserGroupsWrapper) :
  Forall (fun g => is_Some (UserGroup.ID g)) (elems (UserGroups w)) ->
  MarshalJSON w = Returns (Text (encoded (nonempty_ids (elems (UserGroups w)))), None).
Proof.
  intros Hall. unfold MarshalJSON. destruct (UserGroups w) as [gs|]; simpl in *.
  - rewrite (collect_ids_present gs None Hall), marshal_present_ids. reflexivity.
  - reflexivity.
Qed.

Lemma marshal_User_present (user : User.t) :
  Forall (fun g => is_Some (UserGroup.ID g)) (elems (UserGroups (User.Groups user))) ->
  exists payload, marshal_User user = Returns (Text payload, None).
Proof.
  intros Hall. unfold marshal_User. rewrite (MarshalJSON_present _ Hall). eexists. reflexivity.
Qed.


Lemma unmarshal_User_received (user after : User.t) (members : list (string * json))
    (f : User_field) :
  Unmarshal unmarshal_User (Text (JObj members)) user = (after, None) ->
  field_received f user after (carried f members None).
Proof.
  unfold Unmarshal, unmarshal_User, unmarshal_struct.
  destruct (unmarshal_members _ members user) as [after' st] eqn:Em.
  intros [= <- Hst]. apply final_None in Hst as ->.
  apply (unmarshal_members_received f user members user after' None);
    [reflexivity | exact Em].
Qed.

(** C9 (amended): for every User with a non-empty identifier whose groups all
    carry an ID pointer, Get builds a GET request for the path <base>/<id>
    and executes it; a failure to build or execute the request, or to read
    the response, is returned as it is with the User untouched; otherwise the
    response is decoded into the supplied User in place and the decoder's
    error, if any, is returned. On success each field of the User holds the
    value that the response object carries for it: the identifier (a string,
    or null for none), the customer and the credential (a string), the last
    login (a number), the permission list (a list of strings, or null for
    none) and the group membership carried as a non-empty list of full group
    objects; a field that the response does not carry (or carries as a null
    that has no effect on it) keeps its prior local value. *)
Theorem Get_decodes_response_in_place (u : Users) (user : User.t) (id : string)
    (tr : list call) :
  User.ID user = Some id -> id <> EmptyString ->
  Forall (fun g => is_Some (UserGroup.ID g)) (elems (UserGroups (User.Groups user))) ->
  exists payload : json,
    marshal_User user = Returns (Text payload, None)
    /\ let path := baseUserPath +:+ "/" +:+ id in
       let build := CallNewRequest "GET" path None (Some (Text payload)) in
       let built := NewRequest (client u) tr "GET" path None (Some (Text payload)) in
       (forall e, built = inr e ->
          Get u user tr = Returns ((user, Some e), tr ++ [build]))
       /\ (forall req e, built = inl req ->
             Do (client u) (tr ++ [build]) req = inr e ->
             Get u user tr = Returns ((user, Some e), tr ++ [build; CallDo req]))
       /\ (forall req resp, built = inl req ->
             Do (client u) (tr ++ [build]) req = inl resp ->
             Get u user tr
             = Returns (match read_error resp with
                        | Some e => (user, Some e)
                        | None => Unmarshal unmarshal_User (content resp) user
                        end,
                        tr ++ [build; CallDo req; CallReadAll; CallClose])
             /\ forall members after tr',
                  content resp = Text (JObj members) ->
                  Get u user tr = Returns ((after, None), tr') ->
                  forall f, field_received f user after (carried f members None)).
Proof.
  intros Hid Hne Hgroups. apply String.eqb_neq in Hne.
  destruct (marshal_User_present user Hgroups) as [payload Hpayload].
  exists payload. split; [exact Hpayload|].
  intros path build built.
  assert (forall req resp, built = inl req ->
            Do (client u) (tr ++ [build]) req = inl resp ->
            Get u user tr
            = Returns (match read_error resp with
                       | Some e => (user, Some e)
                       | None => Unmarshal unmarshal_User (content resp) user
                       end,
                       tr ++ [build; CallDo req; CallReadAll; CallClose])) as Hrun.
  { intros req resp Hreq Hdo. subst path build built. revert Hreq Hdo. run.
    rewrite Hid. simpl. rewrite Hne, Hpayload. intros -> ->.
    rewrite <- !app_assoc. simpl. destruct (read_error resp); reflexivity. }
  split; [|split].
  - intros e Hreq. subst path build built. revert Hreq. run.
    rewrite Hid. simpl. rewrite Hne, Hpayload. intros ->. reflexivity.
  - intros req e Hreq Hdo. subst path build built. revert Hreq Hdo. run.
    rewrite Hid. simpl. rewrite Hne, Hpayload. intros -> ->.
    rewrite <- !app_assoc. reflexivity.
  - intros req resp Hreq Hdo. split; [apply Hrun; assumption|].
    intros members after tr' Hbody. rewrite (Hrun req resp Hreq Hdo), Hbody.
    destruct (read_error resp); [discriminate|].
    intros [= Hdec _] f. apply unmarshal_User_received. exact Hdec.
Qed.

Lemma Get_decodes_response_in_place_witness :
  let user := User.mk (Some "a") "old" 5 (Some ["user_management"; "ingestion"])
                {| UserGroups := Some [UserGroup.mk (Some "g0") "Eng"] |} "secret" in
  let body := Text (JObj [("identifier", JStr "a");
                          ("cu" +:+ long_s +:+ "tomer", JStr "acme");
                          ("groups", JArr [JStr "alerts_management"]);
                          ("userGroups",
                             JArr [JObj [("id", JStr "g1"); ("name", JStr "Ops")]])]) in
  exists after tr',
    Get (replying body) user [] = Returns ((after, None), tr')
    /\ User_get F_customer after = V_string "acme"
    /\ User_get F_credential after = V_string "secret"
    /\ User_get F_lastSuccessfulLogin after = V_uint 5
    /\ User_get F_groups after = V_strings (Some ["alerts_management"])
    /\ User_get F_userGroups after
       = V_groups {| UserGroups := Some [UserGroup.mk (Some "g1") "Ops"] |}.
Proof.
  intros user body.
  destruct (Get_decodes_response_in_place (replying body) user "a" []
              eq_refl ltac:(discriminate) ltac:(repeat constructor; eexists; reflexivity))
    as (payload & _ & _ & _ & Hrun).
  destruct (Hrun _ _ eq_refl eq_refl) as [Hget Hfields].
  eexists. eexists. split; [exact Hget|].
  split; [apply (Hfields _ _ _ eq_refl Hget F_customer); reflexivity|].
  split; [exact (Hfields _ _ _ eq_refl Hget F_credential)|].
  split; [exact (Hfields _ _ _ eq_refl Hget F_lastSuccessfulLogin)|].
  split; [apply (Hfields _ _ _ eq_refl Hget F_groups); reflexivity|].
  apply (Hfields _ _ _ eq_refl Hget F_userGroups); reflexivity.
Defined.

(** C9, as stated, fails: Get decodes the response into the supplied User,
    so a field that the response does not carry (here the credential and the
    last login) survives from the prior local state, and an ID-only group
    list is appended to the groups the User already had; the result is not
    the server response. And on a User one of whose groups has a nil ID
    pointer no request is issued: encoding the request body panics. *)
Lemma Get_keeps_prior_fields_counterexample :
  let user := User.mk (Some "a") "old" 5 (Some ["user_management"])
                {| UserGroups := Some [UserGroup.mk (Some "g0") "Eng"] |} "secret" in
  let body := Text (JObj [("identifier", JStr "a"); ("customer", JStr "acme");
                          ("userGroups", JArr [JStr "g1"])]) in
  exists after tr',
    Get (replying body) user [] = Returns ((after, None), tr')
    /\ User.Credential after = "secret"
    /\ User.LastSuccessfulLogin after = 5
    /\ User.Groups after
       = {| UserGroups := Some [UserGroup.mk (Some "g0") "Eng";
                                UserGroup.mk (Some "g1") EmptyString] |}
    /\ after <> fst (Unmarshal unmarshal_User body User.zero)
    /\ Get (replying body)
         (User.set_Groups {| UserGroups := Some [UserGroup.mk None "Eng"] |} user) []
       = Panics.
Proof.
  intros user body. eexists. eexists. split; [vm_compute; reflexivity|].
  repeat split. discriminate.
Qed.






(** * Further properties of the code *)

(** ** Group membership: both wire shapes *)

Lemma unmarshal_elems_ptr_strings (l : list (option string)) :
  forall old : list (option string),
    unmarshal_elems unmarshal_ptr_string None
      (List.map (fun p => match p with Some s => JStr s | None => JNull end) l) old
    = (l, Clean).
Proof.
  induction l as [|[s|] l IH]; intros old; simpl; [reflexivity | |];
    rewrite IH; reflexivity.
Qed.

Lemma UnmarshalJSON_appends_ids_aux (ids : slice (option string)) (w : UserGroupsWrapper) :
  UnmarshalJSON (Text (marshal_ptr_strings ids)) w
  = ({| UserGroups := append (UserGroups w) (id_only (elems ids)) |}, None).
Proof.
  unfold UnmarshalJSON, Unmarshal. destruct ids as [l|]; simpl; [|reflexivity].
  rewrite unmarshal_elems_ptr_strings. reflexivity.
Qed.

(** X1: decoding the wire form of any list of ID pointers (what json.Marshal
    gives for a []*string, null for the nil list) succeeds and appends one
    ID-only group per listed pointer, in order, to the groups the wrapper
    already holds: the ID-list branch never replaces or drops what was
    there. *)
Theorem UnmarshalJSON_appends_ids (ids : slice (option string)) (w : UserGroupsWrapper) :
  UnmarshalJSON (Text (marshal_ptr_strings ids)) w
  = ({| UserGroups := append (UserGroups w) (id_only (elems ids)) |}, None)
  /\ elems (append (UserGroups w) (id_only (elems ids)))
     = elems (UserGroups w) ++ id_only (elems ids).
Proof. split; [apply UnmarshalJSON_appends_ids_aux | apply elems_append]. Qed.

Lemma unmarshal_members_never_aborts (members : list (string * json)) :
  forall cur e,
    snd (unmarshal_members (fun k => UserGroup_decoder <$> field_of UserGroup_keys k)
           members cur) <> Aborted e.
Proof.
  induction members as [|[k v] members IH]; intros cur e; simpl; [discriminate|].
  destruct (field_of UserGroup_keys k) as [[|]|]; simpl; [| |apply IH].
  - unfold on_field.
    destruct (unmarshal_ptr_string v (UserGroup.ID cur)) as [i st] eqn:Ev.
    specialize (IH (UserGroup.set_ID i cur)).
    destruct (unmarshal_members _ members (UserGroup.set_ID i cur)) as [g st'].
    destruct v; simpl in Ev; injection Ev as <- <-; simpl in *;
      destruct st'; simpl; try discriminate; try (intros [= ->]; eapply IH; reflexivity).
  - unfold on_field.
    destruct (unmarshal_string v (UserGroup.Name cur)) as [n st] eqn:Ev.
    specialize (IH (UserGroup.set_Name n cur)).
    destruct (unmarshal_members _ members (UserGroup.set_Name n cur)) as [g st'].
    destruct v; simpl in Ev; injection Ev as <- <-; simpl in *;
      destruct st'; simpl; try discriminate; try (intros [= ->]; eapply IH; reflexivity).
Qed.

Lemma unmarshal_UserGroup_saved (j : json) (cur : UserGroup.t) :
  snd (unmarshal_UserGroup j cur) <> Clean -> exists e, snd (unmarshal_UserGroup j cur) = Saved e.
Proof.
  destruct (snd (unmarshal_UserGroup j cur)) as [|e|e] eqn:E; intros Hne;
    [congruence | eauto |].
  destruct j; simpl in E; try discriminate.
  exfalso. exact (unmarshal_members_never_aborts _ _ _ E).
Qed.

Lemma wrapper_eta (w : UserGroupsWrapper) : {| UserGroups := UserGroups w |} = w.
Proof. destruct w; reflexivity. Qed.

(** X2: the decoder accepts no third shape. Bytes that are not JSON give the
    syntax error, and a value that is neither null nor an array gives the type
    error of the group-list attempt, in both cases with the wrapper left as
    it was; an array that mixes a plain ID string with a group object fits
    neither attempt and is rejected too. *)
Theorem UnmarshalJSON_rejects_other_shapes (w : UserGroupsWrapper) :
  UnmarshalJSON Malformed w = (w, Some SyntaxError)
  /\ (forall j, j <> JNull -> (forall items, j <> JArr items) ->
        UnmarshalJSON (Text j) w
        = (w, Some (UnmarshalTypeError (kind j) "[]wavefront.UserGroup")))
  /\ (forall items s members, In (JStr s) items -> In (JObj members) items ->
        exists e, snd (UnmarshalJSON (Text (JArr items)) w) = Some e).
Proof.
  split; [|split].
  - unfold UnmarshalJSON. simpl. rewrite wrapper_eta. reflexivity.
  - intros j Hnull Harr. unfold UnmarshalJSON.
    destruct j; simpl; try congruence; try (rewrite wrapper_eta; reflexivity).
  - intros items s members Hs Hobj. unfold UnmarshalJSON, Unmarshal. simpl.
    pose proof (unmarshal_elems_mismatch unmarshal_ptr_string None (JObj members)
                  unmarshal_ptr_string_saved ltac:(intros cur; discriminate)
                  items [] Hobj) as Hids.
    destruct (unmarshal_elems unmarshal_ptr_string None items []) as [l st].
    simpl in Hids. destruct (final_not_Clean st Hids) as [e ->].
    pose proof (unmarshal_elems_mismatch unmarshal_UserGroup UserGroup.zero (JStr s)
                  unmarshal_UserGroup_saved ltac:(intros cur; discriminate)
                  items (elems (UserGroups w)) Hs) as Hgs.
    destruct (unmarshal_elems unmarshal_UserGroup UserGroup.zero items _) as [gs st2].
    simpl in Hgs. destruct (final_not_Clean st2 Hgs) as [e2 He2].
    exists e2. simpl. exact He2.
Qed.

Lemma UnmarshalJSON_rejects_other_shapes_witness :
  let w := {| UserGroups := Some [UserGroup.mk (Some "g0") "Eng"] |} in
  UnmarshalJSON (Text (JObj [("id", JStr "g1")])) w
  = (w, Some (UnmarshalTypeError "object" "[]wavefront.UserGroup"))
  /\ exists e, snd (UnmarshalJSON (Text (JArr [JStr "g1"; JObj [("id", JStr "g2")]])) w)
               = Some e.
Proof.
  intros w.
  destruct (UnmarshalJSON_rejects_other_shapes w) as (_ & Hshape & Hmixed).
  split.
  - apply (Hshape (JObj [("id", JStr "g1")])); [discriminate | intros items; discriminate].
  - apply (Hmixed _ "g1" [("id", JStr "g2")]); simpl; auto.
Defined.

(** ** Group membership: round trip *)


Lemma nonempty_ids_nonempty (gs : list UserGroup.t) :
  Forall (fun s => s <> EmptyString) (nonempty_ids gs).
Proof.
  induction gs as [|g gs IH]; [constructor|].
  unfold nonempty_ids, has_ID in *. simpl.
  destruct (UserGroup.ID g) as [s|] eqn:E; [|exact IH].
  destruct (String.eqb s EmptyString) eqn:Es; simpl; [exact IH|].
  constructor; [|exact IH]. rewrite E. simpl. apply String.eqb_neq. exact Es.
Qed.




(** ** Response streams *)

Lemma updateUser_balanced (u : Users) (method path : string)
    (params : option (gmap string string)) (user : User.t) (tr tr' : list call)
    (r : User.t * option error) :
  updateUser u method path params user tr = Returns (r, tr') ->
  balanced (client u) tr tr'.
Proof.
  unfold updateUser, bind, ret, lift, call_NewRequest, call_Do, ReadAll, Close, balanced.
  destruct (marshal_User user) as [[payload [e|]]|]; try discriminate.
  - intros [= _ <-]. exists []. rewrite app_nil_r. split; reflexivity.
  - destruct (NewRequest _ _ _ _ _ _) as [req|e] eqn:Ereq.
    + destruct (Do _ _ _) as [resp|e] eqn:Edo; intros [= _ <-]; rewrite <- !app_assoc;
        eexists; (split; [reflexivity|]); simpl; rewrite Edo; reflexivity.
    + intros [= _ <-]. eexists. split; reflexivity.
Qed.

(** X4: no operation leaks a response stream. Whatever the client answers,
    when Get, Update, Delete or Create returns, the calls it made closed
    exactly as many streams as its executions opened: the stream is closed on
    the success path and on the read and decode failure paths, and nothing is
    closed when no stream was obtained. *)
Theorem operations_close_their_streams (u : Users) (user : User.t)
    (newUser : NewUserRequest) (sendEmail : bool) (tr tr' : list call)
    (r : User.t * option error) :
  (Get u user tr = Returns (r, tr') -> balanced (client u) tr tr')
  /\ (Update u user tr = Returns (r, tr') -> balanced (client u) tr tr')
  /\ (Delete u user tr = Returns (r, tr') -> balanced (client u) tr tr')
  /\ (Create u newUser user sendEmail tr = Returns (r, tr') -> balanced (client u) tr tr').
Proof.
  assert (balanced (client u) tr tr) as Hnil
    by (exists []; rewrite app_nil_r; split; reflexivity).
  split; [|split; [|split]].
  - unfold Get, bind, deref, lift, ret. destruct (User.ID user) as [id|]; [|discriminate].
    destruct (String.eqb id EmptyString); [intros [= _ <-]; exact Hnil|].
    apply updateUser_balanced.
  - unfold Update, bind, deref, lift, ret. destruct (User.ID user) as [id|]; [|discriminate].
    destruct (String.eqb id EmptyString); [intros [= _ <-]; exact Hnil|].
    apply updateUser_balanced.
  - unfold Delete, bind, deref, lift, ret, call_NewRequest, call_Do, Close, balanced.
    destruct (User.ID user) as [id|]; [|discriminate].
    destruct (String.eqb id EmptyString); [intros [= _ <-]; exact Hnil|].
    destruct (NewRequest _ _ _ _ _ _) as [req|e] eqn:Ereq.
    + destruct (Do _ _ _) as [resp|e] eqn:Edo; intros [= _ <-]; rewrite <- !app_assoc;
        eexists; (split; [reflexivity|]); simpl; rewrite Edo; reflexivity.
    + intros [= _ <-]. eexists. split; reflexivity.
  - unfold Create, bind, lift, ret, call_NewRequest, call_Do, ReadAll, Close, balanced.
    destruct (String.eqb (EmailAddress newUser) EmptyString);
      [intros [= _ <-]; exact Hnil|].
    destruct (marshal_NewUserRequest newUser) as [[payload [e|]]|]; try discriminate.
    + intros [= _ <-]. exact Hnil.
    + destruct (NewRequest _ _ _ _ _ _) as [req|e] eqn:Ereq.
      * destruct (Do _ _ _) as [resp|e] eqn:Edo; intros [= _ <-]; rewrite <- !app_assoc;
          eexists; (split; [reflexivity|]); simpl; rewrite Edo; reflexivity.
      * intros [= _ <-]. eexists. split; reflexivity.
Qed.

Lemma operations_close_their_streams_witness :
  let user := User.mk (Some "a") "acme" 7 None {| UserGroups := None |} EmptyString in
  let u := replying Malformed in
  balanced (client u) []
    [CallNewRequest "DELETE" "/api/v2/user/a" None None;
     CallDo {| Method := "DELETE"; Path := "/api/v2/user/a"; Query := None; Body := None |};
     CallClose].
Proof.
  intros user u.
  apply (proj1 (proj2 (proj2
           (operations_close_their_streams u user
              {| EmailAddress := "a@b.c"; Permissions := None;
                 Groups := {| UserGroups := None |} |} true [] _
              (User.set_ID (Some EmptyString) user, None))))).
  reflexivity.
Defined.

(** ** The search loop *)

Lemma append_not_empty {A : Type} (s : slice A) (xs : list A) :
  s <> Some [] -> append s xs <> Some [].
Proof.
  destruct s as [[|a l]|], xs as [|x xs]; simpl; congruence.
Qed.

Lemma Find_loop_calls (u : Users) (filter : slice SearchCondition) (fuel : nat) :
  forall (offset : Z) (results : slice (option User.t)) (tr : list call),
    results <> Some [] ->
    exists r calls,
      Find_loop fuel u filter offset results tr = Returns (r, tr ++ calls)
      /\ Forall (is_user_search filter) calls
      /\ (length calls <= fuel)%nat
      /\ match r with
         | OutOfFuel => length calls = fuel
         | Found rs (Some _) => rs = None
         | Found rs None => rs <> Some []
         end.
Proof.
  induction fuel as [|fuel IH]; intros offset results tr Hres.
  - exists OutOfFuel, []. simpl. rewrite app_nil_r. repeat split; constructor.
  - cbn [Find_loop]. unfold bind at 1, call_Execute at 1.
    set (s := {| Type_ := "user"; Conditions := filter; Offset := offset |}).
    assert (is_user_search filter (CallExecute s)) as Hs by (split; reflexivity).
    destruct (Execute (client u) tr s) as [resp|e].
    + destruct (decode_items (Items resp)) as [tmpres [e|]].
      * exists (Found None (Some e)), [CallExecute s].
        repeat split; [repeat constructor; exact Hs | simpl; lia].
      * destruct (MoreItems resp).
        -- destruct (IH (NextOffset resp) (append results (elems tmpres))
                       (tr ++ [CallExecute s]) (append_not_empty _ _ Hres))
             as (r & calls & Hrun & Hcalls & Hlen & Hr).
           exists r, (CallExecute s :: calls). rewrite Hrun, <- app_assoc.
           repeat split; [constructor; assumption | simpl; lia |].
           destruct r as [|rs [e|]]; simpl; auto.
        -- exists (Found (append results (elems tmpres)) None), [CallExecute s].
           repeat split; [repeat constructor; exact Hs | simpl; lia |].
           apply append_not_empty, Hres.
    + exists (Found None (Some e)), [CallExecute s].
      repeat split; [repeat constructor; exact Hs | simpl; lia].
Qed.

(** X5: whatever the search answers, Find never panics and talks to the
    collaborator only through searches of type user carrying the caller's
    filter (it builds and executes no request itself), at most one per loop
    iteration; when it returns an error the result is nil, and a result
    returned without error is never an empty non-nil slice: nothing found is
    the nil slice. *)
Theorem Find_only_searches (u : Users) (filter : slice SearchCondition) (fuel : nat)
    (tr : list call) :
  exists r calls,
    Find fuel u filter tr = Returns (r, tr ++ calls)
    /\ Forall (is_user_search filter) calls
    /\ (length calls <= fuel)%nat
    /\ match r with
       | OutOfFuel => length calls = fuel
       | Found rs (Some _) => rs = None
       | Found rs None => rs <> Some []
       end.
Proof. apply Find_loop_calls. discriminate. Qed.

(** ** Failures and the user handle *)

(** X6: when the request of Delete cannot be built, or its execution fails,
    Delete returns that very error and the User keeps its identifier and all
    its fields: the handle is cleared only after a successful execution, and
    no stream is read or closed. *)
Theorem Delete_failure_keeps_identifier (u : Users) (user : User.t) (id : string)
    (tr : list call) :
  User.ID user = Some id -> id <> EmptyString ->
  let path := baseUserPath +:+ "/" +:+ id in
  let build := CallNewRequest "DELETE" path None None in
  (forall e, NewRequest (client u) tr "DELETE" path None None = inr e ->
     Delete u user tr = Returns ((user, Some e), tr ++ [build]))
  /\ (forall req e, NewRequest (client u) tr "DELETE" path None None = inl req ->
        Do (client u) (tr ++ [build]) req = inr e ->
        Delete u user tr = Returns ((user, Some e), tr ++ [build; CallDo req])).
Proof.
  intros Hid Hne path build. apply String.eqb_neq in Hne. subst path build. split.
  - intros e Hreq. run. rewrite Hid. simpl. rewrite Hne, Hreq. reflexivity.
  - intros req e Hreq Hdo. run. rewrite Hid. simpl. rewrite Hne, Hreq, Hdo.
    rewrite <- !app_assoc. reflexivity.
Qed.

Lemma Delete_failure_keeps_identifier_witness :
  let user := User.mk (Some "a") "acme" 7 None {| UserGroups := None |} "secret" in
  let u := {| client := scripted (inr (Remote 503)) [] |} in
  exists req,
    Delete u user []
    = Returns ((user, Some (Remote 503)),
               [CallNewRequest "DELETE" "/api/v2/user/a" None None; CallDo req]).
Proof.
  intros user u. eexists.
  eapply (proj2 (Delete_failure_keeps_identifier u user "a" [] eq_refl ltac:(discriminate)));
    reflexivity.
Defined.

(** X7: a deleted handle cannot be used again. After a successful Delete the
    User it leaves is rejected by Get, Update and Delete with the validation
    error, without any further collaborator call. *)
Theorem deleted_user_is_rejected (u : Users) (user user' : User.t) (tr tr' : list call) :
  Delete u user tr = Returns ((user', None), tr') ->
  Get u user' tr' = Returns ((user', Some (Errorf "user ID field is not set")), tr')
  /\ Update u user' tr' = Returns ((user', Some (Errorf "user ID field is not set")), tr')
  /\ Delete u user' tr' = Returns ((user', Some (Errorf "user ID field is not set")), tr').
Proof.
  intros Hdel.
  assert (User.ID user' = Some EmptyString) as Hid.
  { revert Hdel. run. destruct (User.ID user) as [id|]; [|discriminate]. simpl.
    destruct (String.eqb id EmptyString); [discriminate|].
    destruct (NewRequest _ _ _ _ _ _) as [req|e]; [|discriminate].
    destruct (Do _ _ _) as [resp|e]; [|discriminate].
    intros [= <- _]. reflexivity. }
  run. rewrite Hid. repeat split.
Qed.

Lemma deleted_user_is_rejected_witness :
  let user := User.mk (Some "a") "acme" 7 None {| UserGroups := None |} "secret" in
  let user' := User.set_ID (Some EmptyString) user in
  exists tr',
    Get (replying Malformed) user' tr'
    = Returns ((user', Some (Errorf "user ID field is not set")), tr').
Proof.
  intros user user'. eexists.
  apply (proj1 (deleted_user_is_rejected (replying Malformed) user user' [] _ eq_refl)).
Defined.

(** ** Response bodies *)

(** X8: what updateUser (the exchange behind Get and Update) makes of a
    response it cannot use, once the request was built and executed: a read
    failure is returned as it is; a body that is not JSON gives the syntax
    error; a JSON value that is neither null nor an object gives the type
    error; the body null is accepted and changes nothing. In all four cases
    the User is left exactly as it was and the stream is closed. *)
Theorem updateUser_unusable_response (u : Users) (method path : string)
    (params : option (gmap string string)) (user : User.t) (tr : list call)
    (payload : wire) (req : Request) (resp : ReadCloser) :
  marshal_User user = Returns (payload, None) ->
  let build := CallNewRequest method path params (Some payload) in
  let done := tr ++ [build; CallDo req; CallReadAll; CallClose] in
  NewRequest (client u) tr method path params (Some payload) = inl req ->
  Do (client u) (tr ++ [build]) req = inl resp ->
  (forall e, read_error resp = Some e ->
     updateUser u method path params user tr = Returns ((user, Some e), done))
  /\ (read_error resp = None -> content resp = Malformed ->
        updateUser u method path params user tr = Returns ((user, Some SyntaxError), done))
  /\ (read_error resp = None -> content resp = Text JNull ->
        updateUser u method path params user tr = Returns ((user, None), done))
  /\ (forall j, read_error resp = None -> content resp = Text j ->
        j <> JNull -> (forall members, j <> JObj members) ->
        updateUser u method path params user tr
        = Returns ((user, Some (UnmarshalTypeError (kind j) "wavefront.User")), done)).
Proof.
  intros Hpayload build done Hreq Hdo. subst build done.
  assert (updateUser u method path params user tr
          = Returns (match read_error resp with
                     | Some e => (user, Some e)
                     | None => Unmarshal unmarshal_User (content resp) user
                     end,
                     tr ++ [CallNewRequest method path params (Some payload);
                            CallDo req; CallReadAll; CallClose])) as Hrun.
  { unfold updateUser, bind, ret, lift, call_NewRequest, call_Do, ReadAll, Close.
    rewrite Hpayload, Hreq, Hdo, <- !app_assoc. reflexivity. }
  rewrite Hrun. split; [|split; [|split]].
  - intros e ->. reflexivity.
  - intros -> ->. reflexivity.
  - intros -> ->. reflexivity.
  - intros j -> -> Hnull Hobj. destruct j; simpl; try reflexivity; [congruence|].
    exfalso. exact (Hobj _ eq_refl).
Qed.

Lemma updateUser_unusable_response_witness :
  let user := User.mk (Some "a") "acme" 7 None {| UserGroups := None |} "secret" in
  exists payload req,
    updateUser (replying (Text (JArr []))) "PUT" "/api/v2/user/a" None user []
    = Returns ((user, Some (UnmarshalTypeError "array" "wavefront.User")),
               [CallNewRequest "PUT" "/api/v2/user/a" None (Some payload);
                CallDo req; CallReadAll; CallClose]).
Proof.
  intros user. eexists. eexists.
  apply (proj2 (proj2 (proj2
           (updateUser_unusable_response (replying (Text (JArr []))) "PUT" "/api/v2/user/a"
              None user [] _ _ _ eq_refl eq_refl eq_refl))) (JArr []));
    [reflexivity | reflexivity | discriminate | intros members; discriminate].
Defined.

(** X9: Create leaves the caller's output User untouched whenever it has
    nothing to populate it from: when the request cannot be built or
    executed, when the response cannot be read or is not JSON (each error
    returned as it is), and, without any error, when the response member of
    the envelope is null. *)
Theorem Create_leaves_user_untouched (u : Users) (newUser : NewUserRequest)
    (user : User.t) (sendEmail : bool) (tr : list call) (payload : wire) :
  EmailAddress newUser <> EmptyString ->
  marshal_NewUserRequest newUser = Returns (payload, None) ->
  let params : gmap string string := {[ "sendEmail" := Sprintf_t sendEmail ]} in
  let build := CallNewRequest "POST" baseUserPath (Some params) (Some payload) in
  let built := NewRequest (client u) tr "POST" baseUserPath (Some params) (Some payload) in
  let done req := tr ++ [build; CallDo req; CallReadAll; CallClose] in
  (forall e, built = inr e ->
     Create u newUser user sendEmail tr = Returns ((user, Some e), tr ++ [build]))
  /\ (forall req e, built = inl req -> Do (client u) (tr ++ [build]) req = inr e ->
        Create u newUser user sendEmail tr
        = Returns ((user, Some e), tr ++ [build; CallDo req]))
  /\ (forall req resp, built = inl req -> Do (client u) (tr ++ [build]) req = inl resp ->
        (forall e, read_error resp = Some e ->
           Create u newUser user sendEmail tr = Returns ((user, Some e), done req))
        /\ (read_error resp = None -> content resp = Malformed ->
              Create u newUser user sendEmail tr
              = Returns ((user, Some SyntaxError), done req))
        /\ (forall pre k post,
              read_error resp = None ->
              content resp = Text (JObj (pre ++ (k, JNull) :: post)) ->
              names_response k = true ->
              Forall (fun kv => names_response (fst kv) = false) (pre ++ post) ->
              Create u newUser user sendEmail tr = Returns ((user, None), done req))).
Proof.
  intros Hmail Hpayload params build built done. apply String.eqb_neq in Hmail.
  assert (Create u newUser user sendEmail tr
          = match built with
            | inr e => Returns ((user, Some e), tr ++ [build])
            | inl req =>
                match Do (client u) (tr ++ [build]) req with
                | inr e => Returns ((user, Some e), tr ++ [build; CallDo req])
                | inl resp =>
                    Returns (match read_error resp with
                             | Some e => (user, Some e)
                             | None =>
                                 let '(env, err) :=
                                   Unmarshal unmarshal_envelope (content resp)
                                     {| Response := Caller; caller := user |} in
                                 (caller env, err)
                             end, done req)
                end
            end) as Hrun.
  { subst params build built done.
    unfold Create, bind, ret, lift, call_NewRequest, call_Do, ReadAll, Close.
    rewrite Hmail, Hpayload.
    destruct (NewRequest _ _ _ _ _ _) as [req|e]; [|reflexivity].
    destruct (Do _ _ _) as [resp|e]; rewrite <- ?app_assoc; [|reflexivity].
    cbn [content read_error app]. destruct (read_error resp); reflexivity. }
  rewrite Hrun. split; [|split].
  - intros e ->. reflexivity.
  - intros req e -> ->. reflexivity.
  - intros req resp -> ->. split; [|split].
    + intros e ->. reflexivity.
    + intros -> ->. reflexivity.
    + intros pre k post -> -> Hk Hrest. apply Forall_app in Hrest as [Hpre Hpost].
      unfold Unmarshal, unmarshal_envelope, unmarshal_struct.
      rewrite (unmarshal_members_single _ unmarshal_Response); [reflexivity | | |].
      * eapply Forall_impl; [exact Hpre|]. intros [k' v']. unfold names_response. simpl.
        destruct (field_of _ k'); [discriminate | reflexivity].
      * eapply Forall_impl; [exact Hpost|]. intros [k' v']. unfold names_response. simpl.
        destruct (field_of _ k'); [discriminate | reflexivity].
      * revert Hk. unfold names_response.
        destruct (field_of _ k) as [[]|]; [reflexivity | discriminate].
Qed.

Lemma Create_leaves_user_untouched_witness :
  let newUser := {| EmailAddress := "a@b.c"; Permissions := None;
                    Groups := {| UserGroups := None |} |} in
  let user := User.mk (Some "old") "acme" 7 None {| UserGroups := None |} "secret" in
  let body := Text (JObj [("status", JStr "ok"); ("Response", JNull)]) in
  exists payload req,
    Create (replying body) newUser user false []
    = Returns ((user, None),
               [CallNewRequest "POST" "/api/v2/user" (Some {[ "sendEmail" := "false" ]})
                  (Some payload);
                CallDo req; CallReadAll; CallClose]).
Proof.
  intros newUser user body. eexists. eexists.
  apply (proj2 (proj2 (proj2 (proj2
           (Create_leaves_user_untouched (replying body) newUser user false [] _
              ltac:(discriminate) eq_refl)) _ _ eq_refl eq_refl))
           [("status", JStr "ok")] "Response" []);
    [reflexivity | reflexivity | reflexivity | repeat constructor].
Defined.

(** ** The encoded user *)










(** ** Found users *)

Lemma id_only_names (ids : list (option string)) :
  Forall (fun g => UserGroup.Name g = EmptyString) (id_only ids).
Proof. induction ids; constructor; [reflexivity | assumption]. Qed.

Lemma unmarshal_members_ID_only (members : list (string * json)) :
  forall (cur after : User.t) (st : dstatus),
    groups_ID_only (Some cur) ->
    lists_group_ids (JObj members) ->
    unmarshal_members (fun k => User_decoder <$> field_of User_keys k) members cur
    = (after, st) ->
    groups_ID_only (Some after).
Proof.
  induction members as [|[k v] members IH]; intros cur after st Hcur Hshape; simpl.
  - intros [= <- _]. exact Hcur.
  - simpl in Hshape. inversion Hshape as [|? ? Hk Hrest]; subst. simpl in Hk.
    destruct (field_of User_keys k) as [f|] eqn:Ef; simpl; [|apply IH; assumption].
    assert (groups_ID_only (Some (fst (User_decoder f v cur)))) as Hstep.
    { destruct (User_field_eqb f F_userGroups) eqn:Efu.
      - apply User_field_eqb_eq in Efu. subst f.
        destruct (Hk eq_refl) as [ids ->]. simpl. rewrite on_field_fst.
        unfold unmarshal_wrapper. rewrite UnmarshalJSON_appends_ids_aux. simpl.
        rewrite elems_append. apply Forall_app. split; [exact Hcur | apply id_only_names].
      - pose proof (User_decoder_frame F_userGroups f v cur Efu) as Hframe.
        simpl in Hframe. injection Hframe as Hframe. simpl. rewrite Hframe. exact Hcur. }
    destruct (User_decoder f v cur) as [cur' st0]. simpl in Hstep.
    destruct (unmarshal_members _ members cur') as [cur'' st'] eqn:Em.
    destruct st0; intros [= <- _]; try exact Hstep;
      apply (IH _ _ _ Hstep Hrest Em).
Qed.

Lemma unmarshal_ptr_User_ID_only (j : json) (a : option User.t) :
  unmarshal_ptr_User j None = (a, Clean) -> lists_group_ids j -> groups_ID_only a.
Proof.
  destruct j; simpl; try discriminate.
  - intros [= <-] _. exact I.
  - destruct (unmarshal_members _ members User.zero) as [u st] eqn:Em.
    intros [= <- _] Hshape.
    apply (unmarshal_members_ID_only members User.zero u st); [constructor | exact Hshape | exact Em].
Qed.

(** X12: users found by a search that lists group membership as plain IDs
    have ID-only groups. Whenever the items of a page decode without error and
    every item carries its group membership as a list of ID strings, every
    group of every decoded user has an ID and nothing else. *)
Theorem found_users_have_ID_only_groups (items : list json) (us : slice (option User.t)) :
  decode_items (Text (JArr items)) = (us, None) ->
  Forall lists_group_ids items ->
  Forall groups_ID_only (elems us).
Proof.
  unfold decode_items, Unmarshal. simpl.
  destruct (unmarshal_elems unmarshal_ptr_User None items []) as [l st] eqn:El.
  intros [= <- Hst]. apply final_None in Hst. subst st. simpl.
  pose proof (unmarshal_elems_Clean unmarshal_ptr_User None
                (fun j a => lists_group_ids j -> groups_ID_only a)
                unmarshal_ptr_User_ID_only items l El) as Hall.
  clear El. induction Hall as [|j a items' l' Hja _ IH]; intros Hitems; [constructor|].
  inversion Hitems as [|? ? Hj Hrest]; subst.
  constructor; [apply Hja, Hj | apply IH, Hrest].
Qed.

Lemma found_users_have_ID_only_groups_witness :
  let items := [JObj [("identifier", JStr "a"); ("userGroups", JArr [JStr "g1"; JStr "g2"])];
                JObj [("identifier", JStr "b"); ("customer", JStr "acme")]] in
  Forall groups_ID_only
    [Some (User.mk (Some "a") EmptyString 0 None
             {| UserGroups := Some [UserGroup.mk (Some "g1") EmptyString;
                                    UserGroup.mk (Some "g2") EmptyString] |} EmptyString);
     Some (User.mk (Some "b") "acme" 0 None {| UserGroups := None |} EmptyString)].
Proof.
  intros items.
  apply (found_users_have_ID_only_groups items (Some _) eq_refl).
  repeat constructor; simpl; try discriminate.
  intros _. exists (Some [Some "g1"; Some "g2"]). reflexivity.
Defined.

(** ** What the encoder emits *)

(** X13: whenever the group-membership encoder returns, it returns no error
    and the text null or a non-empty list of non-empty ID strings: it never
    emits an empty list, an empty ID, a null element or a group object. *)
Theorem MarshalJSON_emits_null_or_ids (w : UserGroupsWrapper) (data : wire)
    (err : option error) :
  MarshalJSON w = Returns (data, err) ->
  err = None
  /\ (data = Text JNull
      \/ exists ids, ids <> [] /\ Forall (fun s => s <> EmptyString) ids
                     /\ data = Text (JArr (List.map JStr ids))).
Proof.
  intros Hret.
  assert (Forall (fun g => is_Some (UserGroup.ID g)) (elems (UserGroups w))) as Hall.
  { apply Forall_forall. intros g Hg. destruct (UserGroup.ID g) eqn:E; [eauto|].
    assert (MarshalJSON w = Panics) as Hp
      by (apply MarshalJSON_panics, Exists_exists; exists g; split; auto).
    congruence. }
  rewrite (MarshalJSON_present w Hall) in Hret. injection Hret as <- <-.
  split; [reflexivity|].
  pose proof (nonempty_ids_nonempty (elems (UserGroups w))) as Hne.
  destruct (nonempty_ids (elems (UserGroups w))) as [|s ids]; [left; reflexivity|].
  right. exists (s :: ids). repeat split; [discriminate | exact Hne].
Qed.

Lemma MarshalJSON_emits_null_or_ids_witness :
  (None : option error) = None
  /\ (Text (JArr [JStr "g1"; JStr "g2"]) = Text JNull
      \/ exists ids, ids <> [] /\ Forall (fun s => s <> EmptyString) ids
                     /\ Text (JArr [JStr "g1"; JStr "g2"]) = Text (JArr (List.map JStr ids))).
Proof.
  apply (MarshalJSON_emits_null_or_ids
           {| UserGroups := Some [UserGroup.mk (Some "g1") "Eng";
                                  UserGroup.mk (Some EmptyString) "Ops";
                                  UserGroup.mk (Some "g2") "QA"] |}
           (Text (JArr [JStr "g1"; JStr "g2"])) None eq_refl).
Defined.

(** ** Null among the found items *)

Lemma unmarshal_ptr_User_nil (j : json) (a : option User.t) :
  unmarshal_ptr_User j None = (a, Clean) -> (a = None <-> j = JNull).
Proof.
  destruct j; simpl.
  - intros [= <-]. tauto.
  - discriminate.
  - discriminate.
  - discriminate.
  - discriminate.
  - destruct (unmarshal_members _ members User.zero) as [u st].
    intros [= <- _]. split; discriminate.
Qed.

(** X14: the items of a page that decode without error give one entry per
    item, in order, and an entry is the nil pointer exactly when its item is
    null: null items are neither skipped nor replaced by empty users. *)
Theorem found_items_keep_nulls (items : list json) (us : slice (option User.t)) :
  decode_items (Text (JArr items)) = (us, None) ->
  Forall2 (fun j found => found = None <-> j = JNull) items (elems us).
Proof.
  unfold decode_items, Unmarshal. simpl.
  destruct (unmarshal_elems unmarshal_ptr_User None items []) as [l st] eqn:El.
  intros [= <- Hst]. apply final_None in Hst. subst st. simpl.
  exact (unmarshal_elems_Clean unmarshal_ptr_User None _ unmarshal_ptr_User_nil items l El).
Qed.

Lemma found_items_keep_nulls_witness :
  Forall2 (fun j found => found = None <-> j = JNull)
    [JObj [("identifier", JStr "a")]; JNull]
    [Some (User.set_ID (Some "a") User.zero); None].
Proof.
  apply (found_items_keep_nulls [JObj [("identifier", JStr "a")]; JNull] (Some _) eq_refl).
Defined.
